(** * Connect4 and the tabular Q-learning agent of [Q-learn.py]

    A shallow embedding of the classes [Connect4] and [QLearningAgent]:
    the board is the list of rows the program builds, a method that
    mutates [self] takes the object and hands back the new one, an
    [IndexError] raised by a subscript is a result of its own, and the two
    calls to [random] are arguments of [choose_action].  Python floats are
    the kernel's binary64 floats. *)

From Stdlib Require Import Floats ZArith Lia.
From stdpp Require Import gmap strings list pretty.

Set Warnings "-inexact-float,-clear-no-such-hyp".

(** ** Python values *)

(** A cell holds one of the strings [" "], ["R"], ["Y"]. *)
Inductive cell : Type := Blank | Red | Yellow.

#[global] Instance cell_eq_dec : EqDecision cell.
Proof. solve_decision. Defined.

Definition cell_str (c : cell) : string :=
  match c with Blank => " " | Red => "R" | Yellow => "Y" end.

(** What a call does: it returns a value or raises [IndexError]. *)
Inductive result (A : Type) : Type :=
  | Returned (a : A)
  | IndexError.
Arguments Returned {A} a.
Arguments IndexError {A}.

#[global] Instance result_eq_dec `{EqDecision A} : EqDecision (result A).
Proof. solve_decision. Defined.

(** [l[i]] for a Python int [i]: a negative index counts from the end. *)
Definition py_index (len : nat) (i : Z) : option nat :=
  if decide (0 ≤ i < Z.of_nat len)%Z then Some (Z.to_nat i)
  else if decide (- Z.of_nat len ≤ i < 0)%Z then Some (Z.to_nat (i + Z.of_nat len))
  else None.

Definition getitem {A} (l : list A) (i : Z) : option A :=
  k ← py_index (length l) i; l !! k.

Definition setitem {A} (l : list A) (i : Z) (x : A) : option (list A) :=
  k ← py_index (length l) i; Some (<[k:=x]> l).

(** [range(n)] and [range(hi, lo, -1)]. *)
Definition range (n : nat) : list nat := seq 0 n.
Definition range_down (hi lo : nat) : list nat := rev (seq (S lo) (hi - lo)).

(** ** class Connect4 *)

Record Connect4 : Type := mkConnect4 {
  board : list (list cell);
  current_player : cell
}.

(** [Connect4.__init__] *)
Definition Connect4_init : Connect4 :=
  {| board := replicate 6 (replicate 7 Blank); current_player := Red |}.

(** ["Y" if self.current_player == "R" else "R"] *)
Definition other_player (p : cell) : cell :=
  if decide (p = Red) then Yellow else Red.

(** The body of the loop of [play], over the rows still to visit. *)
Fixpoint play_rows (rows : list nat) (col : Z) (s : Connect4)
  : result bool * Connect4 :=
  match rows with
  | [] => (Returned false, s)
  | row :: rows' =>
      match board s !! row with
      | None => (IndexError, s)
      | Some r =>
          match getitem r col with
          | None => (IndexError, s)
          | Some x =>
              if decide (x = Blank) then
                match setitem r col (current_player s) with
                | None => (IndexError, s)
                | Some r' =>
                    (Returned true,
                     {| board := <[row := r']> (board s);
                        current_player := other_player (current_player s) |})
                end
              else play_rows rows' col s
          end
      end
  end.

(** [Connect4.play] *)
Definition play (s : Connect4) (col : Z) : result bool * Connect4 :=
  play_rows (range_down 5 0) col s.

(** ** Reading the grid *)

(** [board[row][col]] for indices that are not negative. *)
Definition cell_at (b : list (list cell)) (row col : nat) : option cell :=
  r ← b !! row; r !! col.

(** The same on a grid known to have the cell. *)
Definition cellv (b : list (list cell)) (row col : nat) : cell :=
  default Blank (cell_at b row col).

(** The grid has the shape [__init__] gives it: 6 rows of 7 cells. *)
Definition wf_board (b : list (list cell)) : Prop :=
  length b = 6 ∧ Forall (λ r, length r = 7) b.

#[global] Instance wf_board_dec b : Decision (wf_board b).
Proof. unfold wf_board. apply _. Defined.

(** Writing one cell. *)
Definition set_cell (b : list (list cell)) (row col : nat) (x : cell)
  : list (list cell) :=
  match b !! row with
  | Some r => <[row := <[col := x]> r]> b
  | None => b
  end.

(** The state after a mark of the player to move lands on [(row, col)]. *)
Definition place (s : Connect4) (row col : nat) : Connect4 :=
  {| board := set_cell (board s) row col (current_player s);
     current_player := other_player (current_player s) |}.

(** ** [Connect4.winner] *)

(** What [winner] returns: a mark, [None], or the string ["D"]. *)
Inductive verdict : Type :=
  | Won (mark : cell)
  | NotOver
  | Draw.

(** Control in a function body: fall through to the next statement, return
    from the function, or raise [IndexError]. *)
Inductive flow (V : Type) : Type :=
  | Next
  | Return (v : V)
  | Raise.
Arguments Next {V}.
Arguments Return {V} v.
Arguments Raise {V}.

#[global] Instance verdict_eq_dec : EqDecision verdict.
Proof. solve_decision. Defined.

#[global] Instance flow_eq_dec `{EqDecision V} : EqDecision (flow V).
Proof. solve_decision. Defined.

Definition then_ {V} (f g : flow V) : flow V :=
  match f with Next => g | _ => f end.

Notation "f ;;; g" := (then_ f g) (at level 90, right associativity).

(** A [for] loop whose body may return or raise. *)
Fixpoint for_each {A V} (xs : list A) (body : A → flow V) : flow V :=
  match xs with
  | [] => Next
  | x :: xs' => body x ;;; for_each xs' body
  end.

(** [if b[p1] == b[p2] == b[p3] == b[p4] != " ": return b[p1]].  The chain
    stops at the first comparison that fails, so the later cells are not
    read. *)
Definition check4 (b : list (list cell)) (p1 p2 p3 p4 : nat * nat)
  : flow verdict :=
  match cell_at b p1.1 p1.2, cell_at b p2.1 p2.2 with
  | Some x1, Some x2 =>
      if decide (x1 = x2) then
        match cell_at b p3.1 p3.2 with
        | Some x3 =>
            if decide (x2 = x3) then
              match cell_at b p4.1 p4.2 with
              | Some x4 =>
                  if decide (x3 = x4) then
                    if decide (x4 ≠ Blank) then Return (Won x1) else Next
                  else Next
              | None => Raise
              end
            else Next
        | None => Raise
        end
      else Next
  | _, _ => Raise
  end.

Definition check_rows (b : list (list cell)) : flow verdict :=
  for_each (range 6) (λ row,
    for_each (range 4) (λ col,
      check4 b (row, col) (row, col + 1) (row, col + 2) (row, col + 3))).

Definition check_columns (b : list (list cell)) : flow verdict :=
  for_each (range 7) (λ col,
    for_each (range 3) (λ row,
      check4 b (row, col) (row + 1, col) (row + 2, col) (row + 3, col))).

Definition check_diagonals (b : list (list cell)) : flow verdict :=
  for_each (range 3) (λ row,
    for_each (range 4) (λ col,
      check4 b (row, col) (row + 1, col + 1) (row + 2, col + 2) (row + 3, col + 3) ;;;
      check4 b (row, col + 3) (row + 1, col + 2) (row + 2, col + 1) (row + 3, col))).

Definition check_draw (b : list (list cell)) : flow verdict :=
  for_each (range 7) (λ col,
    match cell_at b 0 col with
    | Some x => if decide (x = Blank) then Return NotOver else Next
    | None => Raise
    end).

Definition winner (s : Connect4) : flow verdict :=
  check_rows (board s) ;;;
  check_columns (board s) ;;;
  check_diagonals (board s) ;;;
  check_draw (board s) ;;;
  Return Draw.

(** ** class QLearningAgent *)

Record QLearningAgent : Type := mkAgent {
  name : string;
  alpha : float;
  gamma : float;
  Q : gmap (string * Z) float
}.

(** [QLearningAgent.__init__(self, alpha=0.1, gamma=0.9)]: an argument left
    out is [None] here. *)
Definition QLearningAgent_init (alpha gamma : option float) : QLearningAgent :=
  {| name := "QLearning Agent";
     alpha := default 0.1%float alpha;
     gamma := default 0.9%float gamma;
     Q := ∅ |}.

(** [QLearningAgent.get_state] *)
Definition get_state (env : Connect4) : string :=
  String.concat "" (map (λ row, String.concat "" (map cell_str row)) (board env)).

(** [self.Q.get((state, action), 0)]; the int [0] of the source acts in the
    arithmetic and the comparisons below as the float [0.0]. *)
Definition Q_get (q : gmap (string * Z) float) (state : string) (action : Z)
  : float :=
  default 0%float (q !! (state, action)).

(** [[col for col in cols if env.play(col)]]: every call of [play] acts on
    the environment the previous one left. *)
Fixpoint valid_actions (cols : list Z) (env : Connect4)
  : result (list Z) * Connect4 :=
  match cols with
  | [] => (Returned [], env)
  | col :: cols' =>
      match play env col with
      | (IndexError, env') => (IndexError, env')
      | (Returned ok, env') =>
          match valid_actions cols' env' with
          | (Returned rest, env'') =>
              (Returned (if ok then col :: rest else rest), env'')
          | (IndexError, env'') => (IndexError, env'')
          end
      end
  end.

(** The loop of [choose_action] over [valid_actions], on the pair
    [(best_action, best_value)]. *)
Definition best_step (q : gmap (string * Z) float) (state : string)
    (best : Z * float) (action : Z) : Z * float :=
  let q_value := Q_get q state action in
  if PrimFloat.ltb best.2 q_value then (action, q_value) else best.

(** [QLearningAgent.choose_action]; [u] is what [random.random()] returns
    and [k] what [random.randint(0, 6)] returns when it is called. *)
Definition choose_action (ag : QLearningAgent) (env : Connect4) (u : float) (k : Z)
  : result (option Z) * Connect4 :=
  let state := get_state env in
  if PrimFloat.ltb u 0.1%float then (Returned (Some k), env)
  else
    match valid_actions (Z.of_nat <$> range 7) env with
    | (IndexError, env') => (IndexError, env')
    | (Returned [], env') => (Returned None, env')
    | (Returned (a0 :: rest), env') =>
        (Returned (Some (foldl (best_step (Q ag) state) (a0, neg_infinity) (a0 :: rest)).1), env')
    end.

(** The builtin [max] on an iterable of floats: it keeps the first item and
    replaces it by a later one that compares greater; on an empty iterable
    it raises [ValueError], here [None]. *)
Definition py_max (xs : list float) : option float :=
  match xs with
  | [] => None
  | x :: xs' => Some (foldl (λ m y, if PrimFloat.ltb m y then y else m) x xs')
  end.

(** [QLearningAgent.update]; [None] stands for the [ValueError] of [max]. *)
Definition update (ag : QLearningAgent) (state : string) (action : Z)
    (reward : float) (next_state : string) : option QLearningAgent :=
  let q_value := Q_get (Q ag) state action in
  max_q_next ← py_max ((λ a, Q_get (Q ag) next_state (Z.of_nat a)) <$> range 7);
  let new_q_value :=
    (q_value + alpha ag * (reward + gamma ag * max_q_next - q_value))%float in
  Some {| name := name ag; alpha := alpha ag; gamma := gamma ag;
          Q := <[(state, action) := new_q_value]> (Q ag) |}.

(** ** Notions the properties are stated with *)

(** Column [j] of the grid, top row first. *)
Definition column (b : list (list cell)) (j : nat) : list cell :=
  omap (λ r, r !! j) b.

(** The number of marks in column [j]. *)
Definition occupied (b : list (list cell)) (j : nat) : nat :=
  length (filter (λ x, x ≠ Blank) (column b j)).

(** A run of calls of [play], each on the state the previous one left. *)
Definition plays (s : Connect4) (cols : list Z) : Connect4 :=
  foldl (λ s col, (play s col).2) s cols.

(** Every call of the run returns [True]. *)
Fixpoint all_succeed (s : Connect4) (cols : list Z) : Prop :=
  match cols with
  | [] => True
  | col :: cols' =>
      (play s col).1 = Returned true ∧ all_succeed (play s col).2 cols'
  end.

(** The states [play] can produce from the board of [__init__]. *)
Inductive reachable : Connect4 → Prop :=
  | reachable_init : reachable Connect4_init
  | reachable_play s col : reachable s → reachable (play s col).2.

(** No blank cell lies below a mark in column [j] (row 5 is the bottom). *)
Definition stacked (b : list (list cell)) (j : nat) : Prop :=
  ∀ r r', r < r' < 6 → cellv b r j ≠ Blank → cellv b r' j ≠ Blank.

(** What the calls of [play] keep true. *)
Record board_inv (s : Connect4) : Prop := {
  inv_wf : wf_board (board s);
  inv_player : current_player s ≠ Blank;
  inv_top : ∀ j, j < 7 → cellv (board s) 0 j = Blank;
  inv_stacked : ∀ j, j < 7 → stacked (board s) j
}.

(** Column 0 after five marks: rows 1 to 5 taken, row 0 blank. *)
Definition five_in_column_0 : Connect4 := plays Connect4_init [0; 0; 0; 0; 0]%Z.

(** ** The order in which [winner] is specified to look for lines *)

Definition pos : Type := nat * nat.

(** Four cells in a line, the first being the one the scan is anchored at. *)
Definition line : Type := pos * pos * pos * pos.

Definition check_line (b : list (list cell)) (l : line) : flow verdict :=
  let '(p1, p2, p3, p4) := l in check4 b p1 p2 p3 p4.

Definition across (r c : nat) : line :=
  ((r, c), (r, c + 1), (r, c + 2), (r, c + 3)).
Definition down (r c : nat) : line :=
  ((r, c), (r + 1, c), (r + 2, c), (r + 3, c)).
Definition down_right (r c : nat) : line :=
  ((r, c), (r + 1, c + 1), (r + 2, c + 2), (r + 3, c + 3)).
Definition down_left (r c : nat) : line :=
  ((r, c + 3), (r + 1, c + 2), (r + 2, c + 1), (r + 3, c)).

(** Rows top to bottom, and within a row left to right. *)
Definition horizontal_lines : list line :=
  r ← range 6; c ← range 4; [across r c].

(** Columns left to right, and within a column top to bottom. *)
Definition vertical_lines : list line :=
  c ← range 7; r ← range 3; [down r c].

(** Anchors top to bottom and left to right; at each anchor the diagonal
    going down and right, then the one going down and left from three
    columns further. *)
Definition diagonal_lines : list line :=
  r ← range 3; c ← range 4; [down_right r c; down_left r c].

Definition scan_order : list line :=
  horizontal_lines ++ vertical_lines ++ diagonal_lines.

Definition in_grid (p : pos) : Prop := p.1 < 6 ∧ p.2 < 7.

Definition line_in_grid (l : line) : Prop :=
  let '(p1, p2, p3, p4) := l in
  in_grid p1 ∧ in_grid p2 ∧ in_grid p3 ∧ in_grid p4.

(** The mark a line is reported with: that of its first cell. *)
Definition line_mark (b : list (list cell)) (l : line) : cell :=
  let '(p1, _, _, _) := l in cellv b p1.1 p1.2.

(** Four identical cells that are not blank. *)
Definition wins (b : list (list cell)) (l : line) : bool :=
  let '(p1, p2, p3, p4) := l in
  bool_decide (cellv b p1.1 p1.2 = cellv b p2.1 p2.2 ∧
               cellv b p2.1 p2.2 = cellv b p3.1 p3.2 ∧
               cellv b p3.1 p3.2 = cellv b p4.1 p4.2 ∧
               cellv b p4.1 p4.2 ≠ Blank).

(** The top row has a blank cell. *)
Definition top_has_blank (b : list (list cell)) : bool :=
  bool_decide (Exists (λ j, cellv b 0 j = Blank) (range 7)).

(** The cell at integer coordinates, when they are on the grid. *)
Definition cellz (b : list (list cell)) (r c : Z) : option cell :=
  if decide (0 ≤ r < 6 ∧ 0 ≤ c < 7)%Z
  then Some (cellv b (Z.to_nat r) (Z.to_nat c)) else None.

(** Across, down, and the two diagonals. *)
Definition directions : list (Z * Z) := [(0, 1); (1, 0); (1, 1); (1, -1)]%Z.

(** A win as the data model words it: four identical non-empty cells
    contiguous along a row, a column or a diagonal. *)
Definition four_in_a_row (b : list (list cell)) : Prop :=
  ∃ (m : cell) (r c : Z) (d : Z * Z),
    m ≠ Blank ∧ d ∈ directions ∧
    ∀ i : Z, (0 ≤ i < 4)%Z → cellz b (r + i * d.1) (c + i * d.2) = Some m.

(** A grid with a Yellow line across row 5 and a Red line down column 6. *)
Definition two_lines : Connect4 :=
  {| board :=
       [ [Blank; Blank; Blank; Blank; Blank; Blank; Blank];
         [Blank; Blank; Blank; Blank; Blank; Blank; Blank];
         [Blank; Blank; Blank; Blank; Blank; Blank; Red];
         [Blank; Blank; Blank; Blank; Blank; Blank; Red];
         [Blank; Blank; Blank; Blank; Blank; Blank; Red];
         [Yellow; Yellow; Yellow; Yellow; Blank; Blank; Red] ];
     current_player := Red |}.

(** A grid with a Yellow diagonal going down and left from (0, 3) and a Red
    diagonal going down and right from (2, 3). *)
Definition two_diagonals : Connect4 :=
  {| board :=
       [ [Blank; Blank; Blank; Yellow; Blank; Blank; Blank];
         [Blank; Blank; Yellow; Blank; Blank; Blank; Blank];
         [Blank; Yellow; Blank; Red; Blank; Blank; Blank];
         [Yellow; Blank; Blank; Blank; Red; Blank; Blank];
         [Blank; Blank; Blank; Blank; Blank; Red; Blank];
         [Blank; Blank; Blank; Blank; Blank; Blank; Red] ];
     current_player := Red |}.

(** A grid with no blank cell and no line. *)
Definition filled_no_line : Connect4 :=
  {| board :=
       [ [Red; Red; Yellow; Yellow; Red; Red; Yellow];
         [Yellow; Yellow; Red; Red; Yellow; Yellow; Red];
         [Red; Red; Yellow; Yellow; Red; Red; Yellow];
         [Yellow; Yellow; Red; Red; Yellow; Yellow; Red];
         [Red; Red; Yellow; Yellow; Red; Red; Yellow];
         [Yellow; Yellow; Red; Red; Yellow; Yellow; Red] ];
     current_player := Red |}.

(** Five rounds of [play] on the columns 0 to 6: rows 1 to 5 are taken. *)
Definition five_rounds : Connect4 :=
  plays Connect4_init (Z.of_nat <$> concat (replicate 5 (range 7))).

(** Column [j] has a blank cell in one of the rows [play] visits. *)
Definition playable (b : list (list cell)) (j : nat) : Prop :=
  Exists (λ r, cellv b r j = Blank) (range_down 5 0).

#[global] Instance playable_dec b j : Decision (playable b j).
Proof. unfold playable. apply _. Defined.

(** The ranges the specification gives for the learning rate and the
    discount factor: alpha in (0, 1], gamma in [0, 1]. *)
Definition valid_config (alpha gamma : float) : bool :=
  (0 <? alpha)%float && (alpha <=? 1)%float &&
  (0 <=? gamma)%float && (gamma <=? 1)%float.

(** ** Counting along a run *)

(** The number of calls of a run that return [True]. *)
Fixpoint successes (s : Connect4) (cols : list Z) : nat :=
  match cols with
  | [] => 0
  | col :: cols' =>
      (if decide ((play s col).1 = Returned true) then 1 else 0) +
      successes (play s col).2 cols'
  end.

(** The number of marks on the seven columns. *)
Definition total_marks (b : list (list cell)) : nat :=
  sum_list (occupied b <$> range 7).

(** The number of cells of the grid that hold [m]. *)
Definition count_cells (b : list (list cell)) (m : cell) : nat :=
  sum_list ((λ row, length (filter (λ x, x = m) row)) <$> b).

(** ** [Connect4.print_board] *)

(** The line printed for one row: ["|"], then every cell followed by
    ["|"]. *)
Definition print_row (row : list cell) : string :=
  "|" +:+ foldr (λ cell line, (cell_str cell +:+ "|") +:+ line) "" row.

(** [Connect4.print_board]: the lines it writes, one per row. *)
Definition print_board (s : Connect4) : list string :=
  print_row <$> board s.

(** ** Runs of [update] *)

(** What one call of [update] is given: state, action, reward, next
    state. *)
Definition experience : Type := string * Z * float * string.

(** Calls of [update] one after the other on the same agent. *)
Fixpoint updates (ag : QLearningAgent) (es : list experience)
  : option QLearningAgent :=
  match es with
  | [] => Some ag
  | (state, action, reward, next_state) :: es' =>
      ag' ← update ag state action reward next_state; updates ag' es'
  end.

(** ** class Agent *)

(** [Agent.choose_action]: the loop draws [random.randint(0, 6)] until
    [play] accepts the column.  [draws] are the values [randint] returns,
    in order; the result is [None] when the loop is still running after
    the last of them, and the draws not consumed are handed back. *)
Fixpoint Agent_choose_action (draws : list Z) (env : Connect4)
  : option (result Z) * Connect4 * list Z :=
  match draws with
  | [] => (None, env, [])
  | col :: draws' =>
      match play env col with
      | (Returned true, env') => (Some (Returned col), env', draws')
      | (Returned false, env') => Agent_choose_action draws' env'
      | (IndexError, env') => (Some IndexError, env', draws')
      end
  end.

(** ** [play_game] *)

(** The two kinds of object [play_game] is called with. *)
Inductive agent : Type :=
  | QLearning (ag : QLearningAgent)
  | Random.

Definition agent_name (a : agent) : string :=
  match a with
  | QLearning ag => name ag
  | Random => "Random Agent"
  end.

(** What the [random] module returns during a run: the values of
    [random.random()] and those of [random.randint(0, 6)], in order. *)
Record randomness : Type := mkRandomness {
  randoms : list float;
  randints : list Z
}.

(** [agent.choose_action(env)]; [None] when the values of [random] given
    do not suffice for the call to return. *)
Definition agent_choose_action (a : agent) (env : Connect4) (rnd : randomness)
  : option (result (option Z)) * Connect4 * randomness :=
  match a with
  | QLearning ag =>
      match randoms rnd with
      | [] => (None, env, rnd)
      | u :: us =>
          if (u <? 0.1)%float then
            match randints rnd with
            | [] => (None, env, rnd)
            | k :: ks =>
                let '(r, env') := choose_action ag env u k in
                (Some r, env', {| randoms := us; randints := ks |})
            end
          else
            (* [randint] is not called on this branch *)
            let '(r, env') := choose_action ag env u 0 in
            (Some r, env', {| randoms := us; randints := randints rnd |})
      end
  | Random =>
      let '(r, env', ks) := Agent_choose_action (randints rnd) env in
      (match r with
       | Some (Returned col) => Some (Returned (Some col))
       | Some IndexError => Some IndexError
       | None => None
       end, env', {| randoms := randoms rnd; randints := ks |})
  end.

(** [if winner:] for the values [winner] returns: [None] is false, a
    non-empty string is true. *)
Definition truthy (v : verdict) : bool :=
  match v with NotOver => false | _ => true end.

(** The value [winner] returned, as an f-string shows it. *)
Definition verdict_str (v : verdict) : string :=
  match v with Won m => cell_str m | NotOver => "None" | Draw => "D" end.

(** The column [choose_action] returned, as an f-string shows it. *)
Definition column_str (col : option Z) : string :=
  match col with Some k => pretty k | None => "None" end.

(** How a run of [play_game] stands: it has returned, with the lines
    printed and the board it leaves; an [IndexError] has escaped; or the
    loop is still running when the turns or the random values given are
    used up. *)
Inductive run : Type :=
  | Ended (out : list string) (env : Connect4)
  | Crashed
  | Running.

(** One agent's part of the loop body: [col = agent.choose_action(env)],
    the line printed, and [winner = env.winner()]. *)
Definition agent_turn (a : agent) (env : Connect4) (rnd : randomness)
    (out : list string)
  : option (result (verdict * Connect4 * randomness * list string)) :=
  match agent_choose_action a env rnd with
  | (None, _, _) => None
  | (Some IndexError, _, _) => Some IndexError
  | (Some (Returned col), env', rnd') =>
      let out' := out ++ [agent_name a +:+ " plays column " +:+ column_str col] in
      match winner env' with
      | Return w => Some (Returned (w, env', rnd', out'))
      | _ => Some IndexError
      end
  end.

(** The statements after the loop. *)
Definition announce (winner : verdict) (env : Connect4) (out : list string)
  : list string :=
  out ++ print_board env ++
  [if decide (winner = Draw) then "It's a draw!"
   else verdict_str winner +:+ " wins!"].

(** [play_game(env, agent1, agent2)], for at most [turns] rounds of the
    [while True] loop; [out] holds the lines printed so far. *)
Fixpoint play_game (turns : nat) (env : Connect4) (agent1 agent2 : agent)
    (rnd : randomness) (out : list string) : run :=
  match turns with
  | 0 => Running
  | S turns' =>
      let out := out ++ print_board env in
      match agent_turn agent1 env rnd out with
      | None => Running
      | Some IndexError => Crashed
      | Some (Returned (winner, env, rnd, out)) =>
          if truthy winner then Ended (announce winner env out) env
          else
            match agent_turn agent2 env rnd out with
            | None => Running
            | Some IndexError => Crashed
            | Some (Returned (winner, env, rnd, out)) =>
                if truthy winner then Ended (announce winner env out) env
                else play_game turns' env agent1 agent2 rnd out
            end
      end
  end.

(** The statements at the end of the file: a new board, a learning agent
    with the default rates, a random agent, and one game. *)
Definition main (turns : nat) (rnd : randomness) : run :=
  play_game turns Connect4_init
    (QLearning (QLearningAgent_init None None)) Random rnd [].

(** Values of [random] with which the game of [main] ends in its third
    round: no exploration, and the random agent drawing 0, then 1. *)
Definition sample_randomness : randomness :=
  {| randoms := [0.5; 0.5; 0.5]%float; randints := [0; 1]%Z |}.

(** A board [play] produces on which rows 1 to 5 are taken and no four
    marks are in a line. *)
Definition stuck_board : Connect4 :=
  plays Connect4_init
    [0; 0; 0; 0; 0; 2; 1; 1; 1; 1; 1; 3; 2; 2; 2; 2; 3; 3; 3; 3;
     4; 4; 4; 4; 4; 6; 5; 5; 5; 5; 6; 6; 6; 6; 5]%Z.

(** Red has three marks in column 0, Yellow three in column 1, and it is
    Red's turn. *)
Definition three_each : Connect4 :=
  plays Connect4_init [0; 1; 0; 1; 0; 1]%Z.

(** * Properties *)

Example range_down_5_0 : range_down 5 0 = [5; 4; 3; 2; 1].
Proof. reflexivity. Qed.

Example play_init_3 :
  play Connect4_init 3 = (Returned true, place Connect4_init 5 3).
Proof. reflexivity. Qed.

Lemma py_index_lt len i k : py_index len i = Some k → k < len.
Proof.
  unfold py_index. repeat case_decide; intros [= <-]; lia.
Qed.

Lemma py_index_nat len (k : nat) : k < len → py_index len (Z.of_nat k) = Some k.
Proof.
  intros Hk. unfold py_index. rewrite decide_True by lia.
  by rewrite Nat2Z.id.
Qed.

Lemma wf_board_row b row :
  wf_board b → row < 6 → ∃ r, b !! row = Some r ∧ length r = 7.
Proof.
  intros [Hlen Hrows] Hrow.
  destruct (lookup_lt_is_Some_2 b row) as [r Hr]; [lia|].
  exists r. split; [done|].
  by eapply (Forall_lookup_1 _ _ _ _ Hrows).
Qed.

Lemma wf_cell_at b row col :
  wf_board b → row < 6 → col < 7 → cell_at b row col = Some (cellv b row col).
Proof.
  intros Hwf Hrow Hcol. unfold cellv, cell_at.
  destruct (wf_board_row b row Hwf Hrow) as (r & -> & Hlen). simpl.
  destruct (lookup_lt_is_Some_2 r col) as [x ->]; [lia|done].
Qed.

Lemma wf_set_cell b row col x : wf_board b → wf_board (set_cell b row col x).
Proof.
  intros [Hlen Hrows]. unfold set_cell.
  destruct (b !! row) as [r|] eqn:Hr; [|done].
  split; [by rewrite length_insert|].
  apply Forall_insert; [done|].
  rewrite length_insert. by eapply (Forall_lookup_1 _ _ _ _ Hrows).
Qed.

Lemma cellv_set_cell b row col x row' col' :
  wf_board b → row < 6 → col < 7 →
  cellv (set_cell b row col x) row' col' =
    if decide (row' = row ∧ col' = col) then x else cellv b row' col'.
Proof.
  intros Hwf Hrow Hcol. unfold cellv, cell_at, set_cell.
  destruct (wf_board_row b row Hwf Hrow) as (r & Hr & Hlen). rewrite Hr.
  destruct (decide (row' = row)) as [->|Hne].
  - rewrite list_lookup_insert_eq by (destruct Hwf; lia). simpl.
    destruct (decide (col' = col)) as [->|Hc].
    + rewrite list_lookup_insert_eq by lia. by rewrite decide_True.
    + rewrite list_lookup_insert_ne by done. rewrite Hr. simpl.
      case_decide; [lia|done].
  - rewrite list_lookup_insert_ne by done.
    case_decide; [lia|done].
Qed.

(** ** One call of [play] *)

Section play.
Context (s : Connect4) (Hwf : wf_board (board s)).

(** One turn of the loop on a grid of the right shape. *)
Lemma play_rows_cons row rows col :
  row < 6 →
  play_rows (row :: rows) col s =
    match py_index 7 col with
    | None => (IndexError, s)
    | Some j =>
        if decide (cellv (board s) row j = Blank)
        then (Returned true, place s row j)
        else play_rows rows col s
    end.
Proof.
  intros Hrow. simpl.
  destruct (wf_board_row _ row Hwf Hrow) as (r & Hr & Hlen).
  rewrite Hr. unfold getitem, setitem. rewrite Hlen.
  destruct (py_index 7 col) as [j|] eqn:Hj; [|done]. simpl.
  pose proof (py_index_lt _ _ _ Hj) as Hlt.
  assert (r !! j = Some (cellv (board s) row j)) as ->.
  { rewrite <- (wf_cell_at _ row j) by done. unfold cell_at. by rewrite Hr. }
  case_decide; [|done].
  unfold place, set_cell. by rewrite Hr.
Qed.

(** What [play] returns and the state it leaves, by the column the index
    selects and the lowest blank cell of rows 5 down to 1. *)
Lemma play_cases col :
  match py_index 7 col with
  | None => play s col = (IndexError, s)
  | Some j =>
      ((∀ r, 1 ≤ r ≤ 5 → cellv (board s) r j ≠ Blank) ∧
       play s col = (Returned false, s)) ∨
      (∃ r, 1 ≤ r ≤ 5 ∧ cellv (board s) r j = Blank ∧
            (∀ r', r < r' ≤ 5 → cellv (board s) r' j ≠ Blank) ∧
            play s col = (Returned true, place s r j))
  end.
Proof.
  unfold play. change (range_down 5 0) with [5; 4; 3; 2; 1].
  rewrite !play_rows_cons by lia.
  destruct (py_index 7 col) as [j|]; [|done].
  repeat case_decide.
  all: try (right; eexists; split_and!; [| |done| |reflexivity]; [lia|lia|];
            intros r' ?;
            repeat match goal with
                   | H : cellv _ ?n _ ≠ Blank |- _ =>
                       destruct (decide (r' = n)) as [->|]; [exact H|]; clear H
                   end; lia).
  left. split; [|done]. intros r ?.
  repeat match goal with
         | H : cellv _ ?n _ ≠ Blank |- _ =>
             destruct (decide (r = n)) as [->|]; [exact H|]; clear H
         end; lia.
Qed.
End play.

Lemma play_wf s col : wf_board (board s) → wf_board (board (play s col).2).
Proof.
  intros Hwf. pose proof (play_cases s Hwf col) as H.
  destruct (py_index 7 col) as [j|]; [|by rewrite H].
  destruct H as [[_ ->]|(r & _ & _ & _ & ->)]; [done|].
  by apply wf_set_cell.
Qed.

(** A call that does not return [True] leaves the object as it was. *)
Lemma play_not_true_same s col :
  wf_board (board s) → (play s col).1 ≠ Returned true → (play s col).2 = s.
Proof.
  intros Hwf. pose proof (play_cases s Hwf col) as H.
  destruct (py_index 7 col) as [j|]; [|by rewrite H].
  by destruct H as [[_ ->]|(r & _ & _ & _ & ->)].
Qed.

Lemma column_wf b j :
  wf_board b → j < 7 → column b j = (λ r, cellv b r j) <$> range 6.
Proof.
  intros Hwf Hj. pose proof (λ r Hr, wf_cell_at b r j Hwf Hr Hj) as Hc.
  pose proof (Hc 0) as H0. pose proof (Hc 1) as H1. pose proof (Hc 2) as H2.
  pose proof (Hc 3) as H3. pose proof (Hc 4) as H4. pose proof (Hc 5) as H5.
  destruct Hwf as [Hlen _].
  do 7 (destruct b as [|? b]; try discriminate Hlen).
  unfold column, range. unfold cell_at in *. simpl in *.
  rewrite H0, H1, H2, H3, H4, H5 by lia. done.
Qed.

Lemma occupied_le_6 b j : wf_board b → j < 7 → occupied b j ≤ 6.
Proof.
  intros Hwf Hj. unfold occupied. rewrite column_wf by done.
  etrans; [apply length_filter|]. by rewrite length_fmap.
Qed.

Lemma occupied_le_5 b j :
  wf_board b → j < 7 → cellv b 0 j = Blank → occupied b j ≤ 5.
Proof.
  intros Hwf Hj Htop. unfold occupied. rewrite column_wf by done.
  change (range 6) with (0 :: seq 1 5). rewrite fmap_cons, Htop.
  rewrite filter_cons_False by naive_solver.
  etrans; [apply length_filter|]. by rewrite length_fmap.
Qed.

Lemma other_player_not_blank p : other_player p ≠ Blank.
Proof. unfold other_player. by case_decide. Qed.

Lemma cellv_init row col : cellv (board Connect4_init) row col = Blank.
Proof.
  unfold cellv, cell_at, Connect4_init, board.
  destruct (replicate 6 (replicate 7 Blank) !! row) as [r|] eqn:Hr; [|done].
  apply lookup_replicate in Hr as [-> _]. simpl.
  do 7 (destruct col as [|col]; [done|]). done.
Qed.

Lemma board_inv_init : board_inv Connect4_init.
Proof.
  split.
  - split; [done|]. by repeat constructor.
  - done.
  - intros j _. apply cellv_init.
  - intros j _ r r' _ H. by rewrite cellv_init in H.
Qed.

Lemma board_inv_play s col : board_inv s → board_inv (play s col).2.
Proof.
  intros [Hwf Hp Htop Hst]. pose proof (play_cases s Hwf col) as H.
  destruct (py_index 7 col) as [j|] eqn:Hj; [|by rewrite H].
  pose proof (py_index_lt _ _ _ Hj) as Hlt.
  destruct H as [[_ ->]|(r & Hr & Hblank & Hbelow & ->)]; [done|].
  split; simpl.
  - by apply wf_set_cell.
  - apply other_player_not_blank.
  - intros j' Hj'. rewrite cellv_set_cell by (done || lia).
    rewrite decide_False by lia. by apply Htop.
  - intros j' Hj' r1 r2 Hr12. rewrite !cellv_set_cell by (done || lia).
    repeat case_decide; try done.
    + intros _. destruct_and!; subst. apply Hbelow. lia.
    + by apply Hst.
Qed.

Lemma reachable_inv s : reachable s → board_inv s.
Proof.
  induction 1 as [|s col _ IH]; [apply board_inv_init|by apply board_inv_play].
Qed.

Lemma plays_snoc s cols col :
  plays s (cols ++ [col]) = (play (plays s cols) col).2.
Proof. unfold plays. by rewrite foldl_app. Qed.

Lemma plays_reachable s cols : reachable s → reachable (plays s cols).
Proof.
  intros Hs. induction cols as [|col cols IH] using rev_ind; [done|].
  rewrite plays_snoc. by constructor.
Qed.

(** ** The loops of [winner] *)

Lemma then_assoc {V} (f g h : flow V) : ((f ;;; g) ;;; h) = (f ;;; g ;;; h).
Proof. by destruct f. Qed.

Lemma then_Next_r {V} (f : flow V) : (f ;;; Next) = f.
Proof. by destruct f. Qed.

Lemma for_each_app {A V} (xs ys : list A) (body : A → flow V) :
  for_each (xs ++ ys) body = (for_each xs body ;;; for_each ys body).
Proof.
  induction xs as [|x xs IH]; [done|]. simpl. by rewrite IH, then_assoc.
Qed.

Lemma for_each_bind {A B V} (xs : list A) (g : A → list B) (body : B → flow V) :
  for_each xs (λ x, for_each (g x) body) = for_each (xs ≫= g) body.
Proof.
  induction xs as [|x xs IH]; [done|].
  simpl. by rewrite for_each_app, IH.
Qed.

Lemma for_each_ext {A V} (xs : list A) (f g : A → flow V) :
  Forall (λ x, f x = g x) xs → for_each xs f = for_each xs g.
Proof. induction 1 as [|x xs Hx _ IH]; [done|]. simpl. by rewrite Hx, IH. Qed.

Lemma check_rows_lines b : check_rows b = for_each horizontal_lines (check_line b).
Proof.
  unfold check_rows, horizontal_lines. rewrite <- for_each_bind.
  apply for_each_ext, Forall_forall. intros r _.
  rewrite <- for_each_bind. apply for_each_ext, Forall_forall. intros c _.
  simpl. by rewrite then_Next_r.
Qed.

Lemma check_columns_lines b :
  check_columns b = for_each vertical_lines (check_line b).
Proof.
  unfold check_columns, vertical_lines. rewrite <- for_each_bind.
  apply for_each_ext, Forall_forall. intros c _.
  rewrite <- for_each_bind. apply for_each_ext, Forall_forall. intros r _.
  simpl. by rewrite then_Next_r.
Qed.

Lemma check_diagonals_lines b :
  check_diagonals b = for_each diagonal_lines (check_line b).
Proof.
  unfold check_diagonals, diagonal_lines. rewrite <- for_each_bind.
  apply for_each_ext, Forall_forall. intros r _.
  rewrite <- for_each_bind. apply for_each_ext, Forall_forall. intros c _.
  simpl. by rewrite then_Next_r.
Qed.

Lemma elem_of_range n k : k ∈ range n ↔ k < n.
Proof. unfold range. rewrite elem_of_seq. lia. Qed.

Lemma elem_of_horizontal_lines l :
  l ∈ horizontal_lines ↔ ∃ r c, r < 6 ∧ c < 4 ∧ l = across r c.
Proof.
  unfold horizontal_lines. rewrite list_elem_of_bind. split.
  - intros (r & Hl & Hr). apply list_elem_of_bind in Hl as (c & Hl & Hc).
    apply list_elem_of_singleton in Hl. apply elem_of_range in Hr, Hc. eauto.
  - intros (r & c & Hr & Hc & ->). exists r. rewrite elem_of_range.
    split; [|done]. apply list_elem_of_bind. exists c.
    rewrite elem_of_range, list_elem_of_singleton. done.
Qed.

Lemma elem_of_vertical_lines l :
  l ∈ vertical_lines ↔ ∃ r c, r < 3 ∧ c < 7 ∧ l = down r c.
Proof.
  unfold vertical_lines. rewrite list_elem_of_bind. split.
  - intros (c & Hl & Hc). apply list_elem_of_bind in Hl as (r & Hl & Hr).
    apply list_elem_of_singleton in Hl. apply elem_of_range in Hr, Hc. eauto.
  - intros (r & c & Hr & Hc & ->). exists c. rewrite elem_of_range.
    split; [|done]. apply list_elem_of_bind. exists r.
    rewrite elem_of_range, list_elem_of_singleton. done.
Qed.

Lemma elem_of_diagonal_lines l :
  l ∈ diagonal_lines ↔
    ∃ r c, r < 3 ∧ c < 4 ∧ (l = down_right r c ∨ l = down_left r c).
Proof.
  unfold diagonal_lines. rewrite list_elem_of_bind. split.
  - intros (r & Hl & Hr). apply list_elem_of_bind in Hl as (c & Hl & Hc).
    apply elem_of_range in Hr, Hc. exists r, c. split_and!; [done..|].
    apply elem_of_cons in Hl as [->|Hl]; [by left|].
    apply list_elem_of_singleton in Hl. by right.
  - intros (r & c & Hr & Hc & Hl). exists r. rewrite elem_of_range.
    split; [|done]. apply list_elem_of_bind. exists c.
    rewrite elem_of_range. split; [|done].
    destruct Hl as [->| ->]; [left|right; left].
Qed.

Lemma elem_of_scan_order l :
  l ∈ scan_order ↔
    (∃ r c, r < 6 ∧ c < 4 ∧ l = across r c) ∨
    (∃ r c, r < 3 ∧ c < 7 ∧ l = down r c) ∨
    (∃ r c, r < 3 ∧ c < 4 ∧ (l = down_right r c ∨ l = down_left r c)).
Proof.
  unfold scan_order. rewrite !elem_of_app.
  by rewrite elem_of_horizontal_lines, elem_of_vertical_lines,
    elem_of_diagonal_lines.
Qed.

Lemma scan_order_in_grid : Forall line_in_grid scan_order.
Proof.
  apply Forall_forall. intros l Hl. apply elem_of_scan_order in Hl.
  destruct Hl as [(r & c & ? & ? & ->)|[(r & c & ? & ? & ->)
    |(r & c & ? & ? & [-> | ->])]];
    unfold line_in_grid, in_grid; simpl; lia.
Qed.

(** On a grid of the right shape a check reads four cells that exist. *)
Lemma check_line_wins b l :
  wf_board b → line_in_grid l →
  check_line b l = if wins b l then Return (Won (line_mark b l)) else Next.
Proof.
  intros Hwf. destruct l as [[[[r1 c1] [r2 c2]] [r3 c3]] [r4 c4]].
  unfold line_in_grid, in_grid. simpl. intros (? & ? & ? & ?).
  unfold check4, wins. simpl.
  rewrite !wf_cell_at by (done || lia).
  repeat case_decide; case_bool_decide; naive_solver.
Qed.

Lemma for_each_find b (ls : list line) :
  wf_board b → Forall line_in_grid ls →
  for_each ls (check_line b) =
    match find (wins b) ls with
    | Some l => Return (Won (line_mark b l))
    | None => Next
    end.
Proof.
  intros Hwf. induction 1 as [|l ls Hl _ IH]; [done|].
  simpl. rewrite check_line_wins by done.
  by destruct (wins b l).
Qed.

Lemma check_draw_top b :
  wf_board b → check_draw b = if top_has_blank b then Return NotOver else Next.
Proof.
  intros Hwf. unfold check_draw, top_has_blank, range. simpl.
  rewrite !wf_cell_at by (done || lia).
  case_bool_decide as H.
  - rewrite !Exists_cons, Exists_nil in H.
    repeat case_decide; naive_solver.
  - rewrite !Exists_cons, Exists_nil in H.
    repeat case_decide; naive_solver.
Qed.

(** [winner] in one equation: the first winning line of the scan, and
    with none the top row decides. *)
Lemma winner_scan s :
  wf_board (board s) →
  winner s =
    match find (wins (board s)) scan_order with
    | Some l => Return (Won (line_mark (board s) l))
    | None => if top_has_blank (board s) then Return NotOver else Return Draw
    end.
Proof.
  intros Hwf. unfold winner.
  rewrite check_rows_lines, check_columns_lines, check_diagonals_lines.
  rewrite <- !then_assoc, <- !for_each_app.
  change (for_each ((horizontal_lines ++ vertical_lines) ++ diagonal_lines))
    with (for_each (A:=line) (V:=verdict) ((horizontal_lines ++ vertical_lines) ++ diagonal_lines)).
  rewrite <- (assoc_L (++)). fold scan_order.
  rewrite for_each_find by (done || apply scan_order_in_grid).
  rewrite check_draw_top by done.
  destruct (find _ _); [done|]. simpl. by destruct (top_has_blank _).
Qed.

(** ** Lines of the data model and lines of the scan *)

Lemma cellz_nat b (r c : Z) (r' c' : nat) :
  r = Z.of_nat r' → c = Z.of_nat c' → r' < 6 → c' < 7 →
  cellz b r c = Some (cellv b r' c').
Proof.
  intros -> -> ? ?. unfold cellz. rewrite decide_True by lia.
  by rewrite !Nat2Z.id.
Qed.

Lemma cellz_Some b r c m :
  cellz b r c = Some m →
  ∃ r' c' : nat, r = Z.of_nat r' ∧ c = Z.of_nat c' ∧ r' < 6 ∧ c' < 7 ∧
                 cellv b r' c' = m.
Proof.
  unfold cellz. case_decide; [|done]. intros [= <-].
  exists (Z.to_nat r), (Z.to_nat c). split_and!; (done || lia).
Qed.

Lemma wins_four_in_a_row b l : l ∈ scan_order → wins b l = true → four_in_a_row b.
Proof.
  intros Hl Hw. apply elem_of_scan_order in Hl.
  destruct Hl as [(r & c & ? & ? & ->)|[(r & c & ? & ? & ->)
    |(r & c & ? & ? & [-> | ->])]];
    apply bool_decide_eq_true in Hw; simpl in Hw;
    destruct Hw as (H1 & H2 & H3 & H4).
  - exists (cellv b r c), (Z.of_nat r), (Z.of_nat c), (0, 1)%Z.
    split_and!; [congruence|set_solver|]. intros i Hi. simpl.
    assert (i = 0 ∨ i = 1 ∨ i = 2 ∨ i = 3)%Z as [->|[->|[->| ->]]] by lia.
    + rewrite (cellz_nat b _ _ r c) by lia. done.
    + rewrite (cellz_nat b _ _ r (c + 1)) by lia. f_equal. congruence.
    + rewrite (cellz_nat b _ _ r (c + 2)) by lia. f_equal. congruence.
    + rewrite (cellz_nat b _ _ r (c + 3)) by lia. f_equal. congruence.
  - exists (cellv b r c), (Z.of_nat r), (Z.of_nat c), (1, 0)%Z.
    split_and!; [congruence|set_solver|]. intros i Hi. simpl.
    assert (i = 0 ∨ i = 1 ∨ i = 2 ∨ i = 3)%Z as [->|[->|[->| ->]]] by lia.
    + rewrite (cellz_nat b _ _ r c) by lia. done.
    + rewrite (cellz_nat b _ _ (r + 1) c) by lia. f_equal. congruence.
    + rewrite (cellz_nat b _ _ (r + 2) c) by lia. f_equal. congruence.
    + rewrite (cellz_nat b _ _ (r + 3) c) by lia. f_equal. congruence.
  - exists (cellv b r c), (Z.of_nat r), (Z.of_nat c), (1, 1)%Z.
    split_and!; [congruence|set_solver|]. intros i Hi. simpl.
    assert (i = 0 ∨ i = 1 ∨ i = 2 ∨ i = 3)%Z as [->|[->|[->| ->]]] by lia.
    + rewrite (cellz_nat b _ _ r c) by lia. done.
    + rewrite (cellz_nat b _ _ (r + 1) (c + 1)) by lia. f_equal. congruence.
    + rewrite (cellz_nat b _ _ (r + 2) (c + 2)) by lia. f_equal. congruence.
    + rewrite (cellz_nat b _ _ (r + 3) (c + 3)) by lia. f_equal. congruence.
  - exists (cellv b r (c + 3)), (Z.of_nat r), (Z.of_nat (c + 3)), (1, -1)%Z.
    split_and!; [congruence|set_solver|]. intros i Hi. simpl.
    assert (i = 0 ∨ i = 1 ∨ i = 2 ∨ i = 3)%Z as [->|[->|[->| ->]]] by lia.
    + rewrite (cellz_nat b _ _ r (c + 3)) by lia. done.
    + rewrite (cellz_nat b _ _ (r + 1) (c + 2)) by lia. f_equal. congruence.
    + rewrite (cellz_nat b _ _ (r + 2) (c + 1)) by lia. f_equal. congruence.
    + rewrite (cellz_nat b _ _ (r + 3) c) by lia. f_equal. congruence.
Qed.

Lemma four_in_a_row_wins b :
  four_in_a_row b → ∃ l, l ∈ scan_order ∧ wins b l = true.
Proof.
  intros (m & r & c & d & Hm & Hd & H).
  destruct (cellz_Some _ _ _ _ (H 0%Z ltac:(lia))) as (r0 & c0 & ? & ? & ? & ? & Hv0).
  destruct (cellz_Some _ _ _ _ (H 1%Z ltac:(lia))) as (r1 & c1 & ? & ? & ? & ? & Hv1).
  destruct (cellz_Some _ _ _ _ (H 2%Z ltac:(lia))) as (r2 & c2 & ? & ? & ? & ? & Hv2).
  destruct (cellz_Some _ _ _ _ (H 3%Z ltac:(lia))) as (r3 & c3 & ? & ? & ? & ? & Hv3).
  clear H. unfold directions in Hd.
  repeat (apply elem_of_cons in Hd as [->|Hd]); [..|by apply elem_of_nil in Hd];
    simpl in *.
  - assert (r1 = r0 ∧ r2 = r0 ∧ r3 = r0 ∧ c1 = c0 + 1 ∧ c2 = c0 + 2 ∧ c3 = c0 + 3)
      as (-> & -> & -> & -> & -> & ->) by lia.
    exists (across r0 c0). split.
    + apply elem_of_scan_order. left. exists r0, c0. split_and!; (done || lia).
    + apply bool_decide_eq_true. simpl. split_and!; congruence.
  - assert (c1 = c0 ∧ c2 = c0 ∧ c3 = c0 ∧ r1 = r0 + 1 ∧ r2 = r0 + 2 ∧ r3 = r0 + 3)
      as (-> & -> & -> & -> & -> & ->) by lia.
    exists (down r0 c0). split.
    + apply elem_of_scan_order. right; left. exists r0, c0.
      split_and!; (done || lia).
    + apply bool_decide_eq_true. simpl. split_and!; congruence.
  - assert (r1 = r0 + 1 ∧ r2 = r0 + 2 ∧ r3 = r0 + 3 ∧
            c1 = c0 + 1 ∧ c2 = c0 + 2 ∧ c3 = c0 + 3)
      as (-> & -> & -> & -> & -> & ->) by lia.
    exists (down_right r0 c0). split.
    + apply elem_of_scan_order. right; right. exists r0, c0.
      split_and!; [lia|lia|by left].
    + apply bool_decide_eq_true. simpl. split_and!; congruence.
  - assert (r1 = r0 + 1 ∧ r2 = r0 + 2 ∧ r3 = r0 + 3 ∧
            c0 = c3 + 3 ∧ c1 = c3 + 2 ∧ c2 = c3 + 1)
      as (-> & -> & -> & -> & -> & ->) by lia.
    exists (down_left r0 c3). split.
    + apply elem_of_scan_order. right; right. exists r0, c3.
      split_and!; [lia|lia|by right].
    + apply bool_decide_eq_true. simpl. split_and!; congruence.
Qed.

Lemma no_line_find b : ¬ four_in_a_row b ↔ find (wins b) scan_order = None.
Proof.
  split.
  - intros Hno. destruct (find _ _) as [l|] eqn:Hf; [|done].
    apply find_some in Hf as [Hl Hw]. apply list_elem_of_In in Hl.
    destruct Hno. by eapply wins_four_in_a_row.
  - intros Hf (l & Hl & Hw)%four_in_a_row_wins.
    apply list_elem_of_In in Hl.
    pose proof (find_none _ _ Hf l Hl) as Hn. congruence.
Qed.

Lemma top_has_blank_true b :
  top_has_blank b = true ↔ ∃ j, j < 7 ∧ cellv b 0 j = Blank.
Proof.
  unfold top_has_blank. rewrite bool_decide_eq_true, Exists_exists.
  by setoid_rewrite elem_of_range.
Qed.

Lemma top_has_blank_false b :
  top_has_blank b = false ↔ ∀ j, j < 7 → cellv b 0 j ≠ Blank.
Proof.
  rewrite <- not_true_iff_false, top_has_blank_true. naive_solver.
Qed.

(** The rows the loop does not visit keep their cells, whatever the shape
    of the grid and whatever the index. *)
Lemma play_rows_other_rows rows col s r c :
  r ∉ rows →
  cellv (board (play_rows rows col s).2) r c = cellv (board s) r c.
Proof.
  induction rows as [|row rows IH]; [done|].
  intros [Hne Hr]%not_elem_of_cons. simpl.
  destruct (board s !! row) as [x|] eqn:Hx; [|done].
  destruct (getitem x col) as [y|]; [|done].
  case_decide; [|by apply IH].
  destruct (setitem x col (current_player s)) as [x'|]; [|done].
  simpl. unfold cellv, cell_at. by rewrite list_lookup_insert_ne.
Qed.

(** ** The order of floats and the builtin [max] *)

Lemma SFltb_irrefl x : SFltb x x = false.
Proof.
  unfold SFltb, SFcompare.
  destruct x as [[]|[]| |[] m e]; try done.
  all: rewrite Z.compare_refl; fold (Pos.compare m m);
    by rewrite Pos.compare_refl.
Qed.

Lemma SFltb_trans x y z : SFltb x y = true → SFltb y z = true → SFltb x z = true.
Proof.
  unfold SFltb, SFcompare.
  destruct x as [[]|[]| |[] m1 e1], y as [[]|[]| |[] m2 e2],
    z as [[]|[]| |[] m3 e3]; try done.
  all: fold (Pos.compare m1 m2); fold (Pos.compare m2 m3);
    fold (Pos.compare m1 m3).
  all: destruct (Z.compare_spec e1 e2), (Z.compare_spec e2 e3),
    (Z.compare_spec e1 e3); try done; try lia.
  all: destruct (Pos.compare_spec m1 m2), (Pos.compare_spec m2 m3),
    (Pos.compare_spec m1 m3); try done; try lia.
Qed.

Lemma ltb_irrefl (x : float) : (x <? x)%float = false.
Proof. rewrite ltb_spec. apply SFltb_irrefl. Qed.

Lemma ltb_trans (x y z : float) :
  (x <? y)%float = true → (y <? z)%float = true → (x <? z)%float = true.
Proof. rewrite !ltb_spec. apply SFltb_trans. Qed.

(** The item [max] keeps is one of the items, and no item compares greater
    than it. *)
Lemma foldl_max_greatest (x : float) (xs : list float) :
  let m := foldl (λ m y, if (m <? y)%float then y else m) x xs in
  m ∈ x :: xs ∧ ∀ v, v ∈ x :: xs → (m <? v)%float = false.
Proof.
  simpl. induction xs as [|y xs IH] using rev_ind.
  - simpl. split; [left|]. intros v ->%list_elem_of_singleton. apply ltb_irrefl.
  - rewrite foldl_app. simpl. destruct IH as [Hin Hmax].
    set (m := foldl _ x xs) in *.
    destruct (m <? y)%float eqn:Hlt.
    + split; [set_solver|]. intros v Hv.
      rewrite app_comm_cons, elem_of_app, list_elem_of_singleton in Hv.
      destruct Hv as [Hv| ->]; [|apply ltb_irrefl].
      destruct (y <? v)%float eqn:Hyv; [|done].
      pose proof (Hmax v Hv) as Hmv.
      by rewrite (ltb_trans _ _ _ Hlt Hyv) in Hmv.
    + split; [set_solver|]. intros v Hv.
      rewrite app_comm_cons, elem_of_app, list_elem_of_singleton in Hv.
      destruct Hv as [Hv| ->]; [by apply Hmax|done].
Qed.

Lemma py_max_greatest (xs : list float) m :
  py_max xs = Some m → m ∈ xs ∧ ∀ v, v ∈ xs → (m <? v)%float = false.
Proof.
  destruct xs as [|x xs]; [done|]. intros [= <-]. apply foldl_max_greatest.
Qed.

(** ** The list comprehension of [choose_action] *)

Lemma playable_rows b j :
  playable b j ↔ ∃ r, 1 ≤ r ≤ 5 ∧ cellv b r j = Blank.
Proof.
  unfold playable. change (range_down 5 0) with [5; 4; 3; 2; 1].
  rewrite !Exists_cons, Exists_nil. split.
  - intros [?|[?|[?|[?|[?|[]]]]]]; eexists; (split; [|done]); lia.
  - intros (r & Hr & Hb).
    assert (r = 5 ∨ r = 4 ∨ r = 3 ∨ r = 2 ∨ r = 1) as [->|[->|[->|[->| ->]]]]
      by lia; tauto.
Qed.

(** [play] with a column number in range(7). *)
Lemma play_column s j :
  wf_board (board s) → j < 7 →
  (playable (board s) j ∧
   ∃ r, 1 ≤ r ≤ 5 ∧ cellv (board s) r j = Blank ∧
        play s (Z.of_nat j) = (Returned true, place s r j)) ∨
  (¬ playable (board s) j ∧ play s (Z.of_nat j) = (Returned false, s)).
Proof.
  intros Hwf Hj. pose proof (play_cases s Hwf (Z.of_nat j)) as H.
  rewrite py_index_nat in H by done.
  destruct H as [[Hno Hp]|(r & Hr & Hb & _ & Hp)].
  - right. split; [|done]. intros (r & Hr & Hb)%playable_rows. by eapply Hno.
  - left. split; [apply playable_rows|]; eauto.
Qed.

Lemma column_set_cell_ne b r j x j' :
  wf_board b → r < 6 → j < 7 → j' < 7 → j' ≠ j →
  column (set_cell b r j x) j' = column b j'.
Proof.
  intros Hwf Hr Hj Hj' Hne.
  rewrite !column_wf by (done || by apply wf_set_cell).
  apply list_fmap_ext. intros _ r' _.
  rewrite cellv_set_cell by done. case_decide; [lia|done].
Qed.

Lemma playable_set_cell_ne b r j x j' :
  wf_board b → r < 6 → j < 7 → j' ≠ j →
  playable (set_cell b r j x) j' ↔ playable b j'.
Proof.
  intros Hwf Hr Hj Hne. rewrite !playable_rows.
  setoid_rewrite cellv_set_cell; [|done..].
  split; intros (r' & ? & Hb); exists r'; (split; [done|]);
    by rewrite decide_False in * by lia.
Qed.

Lemma filter_iff_elem {A} (P1 P2 : A → Prop)
    `{!∀ x, Decision (P1 x), !∀ x, Decision (P2 x)} (l : list A) :
  (∀ x, x ∈ l → P1 x ↔ P2 x) → filter P1 l = filter P2 l.
Proof.
  induction l as [|x l IH]; intros HP; [done|].
  rewrite !filter_cons, IH by (intros; apply HP; by right).
  pose proof (HP x ltac:(left)). repeat case_decide; naive_solver.
Qed.

Lemma filter_insert_mark (l : list cell) r x :
  l !! r = Some Blank → x ≠ Blank →
  length (filter (λ y, y ≠ Blank) (<[r:=x]> l)) =
    S (length (filter (λ y, y ≠ Blank) l)).
Proof.
  revert r. induction l as [|y l IH]; intros [|r] Hr Hx; simplify_eq/=.
  - rewrite filter_cons_True, filter_cons_False by naive_solver. done.
  - rewrite !filter_cons. case_decide; simpl; by rewrite IH.
Qed.

Lemma occupied_set_cell b r j x :
  wf_board b → r < 6 → j < 7 → cellv b r j = Blank → x ≠ Blank →
  occupied (set_cell b r j x) j = S (occupied b j).
Proof.
  intros Hwf Hr Hj Hb Hx. unfold occupied.
  assert (column (set_cell b r j x) j = <[r:=x]> (column b j)) as ->.
  { rewrite !column_wf by (done || by apply wf_set_cell).
    apply list_eq. intros i.
    destruct (decide (i = r)) as [->|Hi].
    - rewrite list_lookup_insert_eq by (by rewrite length_fmap).
      rewrite list_lookup_fmap.
      destruct (range 6 !! r) as [r'|] eqn:Hr'.
      + apply lookup_seq in Hr' as [-> _]. simpl.
        rewrite cellv_set_cell by done. by rewrite decide_True.
      + apply lookup_ge_None in Hr'. unfold range in Hr'.
        rewrite length_seq in Hr'. lia.
    - rewrite list_lookup_insert_ne by done. rewrite !list_lookup_fmap.
      destruct (range 6 !! i) as [r'|] eqn:Hr'; [|done].
      apply lookup_seq in Hr' as [-> _]. simpl.
      rewrite cellv_set_cell by done. by rewrite decide_False by lia. }
  apply filter_insert_mark; [|done].
  rewrite column_wf, list_lookup_fmap by done.
  unfold range. rewrite lookup_seq_lt by done. simpl. by rewrite Hb.
Qed.

(** The seven calls of the comprehension, one column after the other: the
    columns that were playable before any call are the ones kept, each of
    them has one more mark, and the others are as they were. *)
Lemma plays_cons s col cols : plays s (col :: cols) = plays (play s col).2 cols.
Proof. done. Qed.

Lemma valid_actions_cons col cols env :
  valid_actions (col :: cols) env =
    match play env col with
    | (IndexError, env') => (IndexError, env')
    | (Returned ok, env') =>
        match valid_actions cols env' with
        | (Returned rest, env'') =>
            (Returned (if ok then col :: rest else rest), env'')
        | (IndexError, env'') => (IndexError, env'')
        end
    end.
Proof. done. Qed.

Lemma valid_actions_columns (js : list nat) s :
  wf_board (board s) → current_player s ≠ Blank →
  NoDup js → Forall (λ j, j < 7) js →
  let s' := plays s (Z.of_nat <$> js) in
  valid_actions (Z.of_nat <$> js) s =
    (Returned (Z.of_nat <$> filter (playable (board s)) js), s') ∧
  wf_board (board s') ∧
  (∀ j, j < 7 → j ∈ js → playable (board s) j →
        occupied (board s') j = S (occupied (board s) j)) ∧
  (∀ j, j < 7 → ¬ (j ∈ js ∧ playable (board s) j) →
        column (board s') j = column (board s) j ∧
        (playable (board s') j ↔ playable (board s) j)) ∧
  current_player s' =
    Nat.iter (length (filter (playable (board s)) js)) other_player
             (current_player s).
Proof.
  intros Hwf Hcp Hnd Hjs. revert s Hwf Hcp.
  induction js as [|j js IH]; intros s Hwf Hcp; cbv zeta.
  { split_and!; try done. intros j _ Hin. set_solver. }
  apply NoDup_cons in Hnd as [Hj_js Hnd]. apply Forall_cons in Hjs as [Hj Hjs].
  specialize (IH Hnd Hjs). cbv zeta in IH.
  rewrite fmap_cons, plays_cons, valid_actions_cons.
  destruct (play_column s j Hwf Hj) as [[Hpl (r & Hr & Hb & Hplay)]|[Hnpl Hplay]].
  - assert (r < 6) as Hr6 by lia.
    destruct (IH (place s r j)) as (Hva & Hwf' & Hocc & Hcol & Hcur).
    { by apply wf_set_cell. } { apply other_player_not_blank. }
    assert (filter (playable (board (place s r j))) js =
            filter (playable (board s)) js) as Hfilter.
    { apply filter_iff_elem. intros j' Hj'.
      apply playable_set_cell_ne; [done..|]. intros ->. done. }
    rewrite Hplay. cbv beta iota. rewrite Hva. cbv beta iota.
    rewrite Hfilter in *. rewrite filter_cons_True by done.
    change (place s r j, Returned true).2 with (place s r j).
    change (Returned true, place s r j).2 with (place s r j).
    split_and!; [done|done|..].
    + intros j' Hj' Hin Hpl'. destruct (decide (j' = j)) as [->|Hne].
      * destruct (Hcol j Hj) as [Hc _]; [naive_solver|].
        unfold occupied. rewrite Hc.
        fold (occupied (board (place s r j)) j). by apply occupied_set_cell.
      * rewrite Hocc; [|done|set_solver|by apply playable_set_cell_ne].
        unfold occupied. f_equal. f_equal. f_equal.
        by apply column_set_cell_ne.
    + intros j' Hj' Hnot.
      assert (j' ≠ j) as Hne by (intros ->; apply Hnot; split; [left|done]).
      destruct (Hcol j' Hj') as [Hc Hp].
      { intros [Hin Hpl']. apply Hnot. split; [by right|].
        by apply playable_set_cell_ne in Hpl'. }
      rewrite Hc, Hp. split; [by apply column_set_cell_ne|].
      by apply playable_set_cell_ne.
    + rewrite Hcur, length_cons, Nat.iter_succ_r. done.
  - destruct (IH s Hwf Hcp) as (Hva & Hwf' & Hocc & Hcol & Hcur).
    rewrite Hplay. cbv beta iota. rewrite Hva. cbv beta iota.
    rewrite filter_cons_False by done.
    change (Returned false, s).2 with s.
    split_and!; [done|done|..].
    + intros j' Hj' Hin Hpl'. apply Hocc; [done| |done].
      apply elem_of_cons in Hin as [->|]; [done|done].
    + intros j' Hj' Hnot. apply Hcol; [done|].
      intros [Hin Hpl']. apply Hnot. split; [by right|done].
    + done.
Qed.

Lemma foldl_best_step_in q state (acts : list Z) best :
  (foldl (best_step q state) best acts).1 ∈ best.1 :: acts.
Proof.
  revert best. induction acts as [|a acts IH]; intros best; simpl; [left|].
  specialize (IH (best_step q state best a)).
  assert ((best_step q state best a).1 = a ∨
          (best_step q state best a).1 = best.1) as [Heq|Heq].
  { unfold best_step. destruct (_ <? _)%float; auto. }
  all: rewrite Heq in IH; set_solver.
Qed.

(** [choose_action] when [random.random()] is not below 0.1. *)
Lemma choose_action_exploit ag env u k :
  wf_board (board env) → current_player env ≠ Blank →
  (u <? 0.1)%float = false →
  choose_action ag env u k =
    (match Z.of_nat <$> filter (playable (board env)) (range 7) with
     | [] => Returned None
     | a0 :: rest =>
         Returned (Some (foldl (best_step (Q ag) (get_state env))
                               (a0, neg_infinity) (a0 :: rest)).1)
     end,
     plays env (Z.of_nat <$> range 7)).
Proof.
  intros Hwf Hcp Hu. unfold choose_action. rewrite Hu.
  destruct (valid_actions_columns (range 7) env Hwf Hcp) as [-> _].
  { apply NoDup_seq. }
  { apply Forall_forall. by intros j ?%elem_of_range. }
  by destruct (Z.of_nat <$> filter _ _).
Qed.

Lemma cellv_filled_no_line r j :
  r < 6 → j < 7 → cellv (board filled_no_line) r j ≠ Blank.
Proof.
  intros Hr Hj.
  do 6 (destruct r as [|r]; [do 7 (destruct j as [|j]; [done|]); lia|]). lia.
Qed.

Lemma five_rounds_board :
  five_rounds =
    {| board :=
         [ [Blank; Blank; Blank; Blank; Blank; Blank; Blank];
           [Red; Yellow; Red; Yellow; Red; Yellow; Red];
           [Yellow; Red; Yellow; Red; Yellow; Red; Yellow];
           [Red; Yellow; Red; Yellow; Red; Yellow; Red];
           [Yellow; Red; Yellow; Red; Yellow; Red; Yellow];
           [Red; Yellow; Red; Yellow; Red; Yellow; Red] ];
       current_player := Yellow |}.
Proof. vm_compute. reflexivity. Qed.

(** * The claims *)

(** C1 (the code departs from the claim): after five marks in column 0 its
    top cell, row 0, is still blank, so the column has an EMPTY cell and the
    move is legal as the claim words it; yet [play] returns [False] and
    leaves the state as it was.  The loop [range(5, 0, -1)] stops at row 1. *)
Theorem play_refuses_column_with_blank_top :
  cellv (board five_in_column_0) 0 0 = Blank ∧
  play five_in_column_0 0 = (Returned false, five_in_column_0).
Proof. split; reflexivity. Qed.

(** C5: [winner] depends on the grid alone; on a grid with no four in a
    row it returns ["D"] exactly when the top row has no blank cell and
    [None] exactly when it has one, so ["D"] on a grid without any blank
    cell; on the board of [__init__] it returns [None]. *)
Theorem winner_without_line s :
  wf_board (board s) → ¬ four_in_a_row (board s) →
  (∀ s', board s' = board s → winner s' = winner s) ∧
  (winner s = Return Draw ↔ ∀ j, j < 7 → cellv (board s) 0 j ≠ Blank) ∧
  (winner s = Return NotOver ↔ ∃ j, j < 7 ∧ cellv (board s) 0 j = Blank) ∧
  ((∀ r j, r < 6 → j < 7 → cellv (board s) r j ≠ Blank) →
   winner s = Return Draw) ∧
  winner Connect4_init = Return NotOver.
Proof.
  intros Hwf Hno. apply no_line_find in Hno.
  assert (winner s = if top_has_blank (board s) then Return NotOver
                     else Return Draw) as Hw.
  { rewrite winner_scan by done. by rewrite Hno. }
  split_and!.
  - intros s' Hb. unfold winner. by rewrite Hb.
  - rewrite Hw, <- top_has_blank_false. by destruct (top_has_blank _).
  - rewrite Hw, <- top_has_blank_true. by destruct (top_has_blank _).
  - intros Hfull. rewrite Hw.
    destruct (top_has_blank _) eqn:Htop; [|done].
    apply top_has_blank_true in Htop as (j & Hj & Hb).
    by destruct (Hfull 0 j ltac:(lia) Hj).
  - reflexivity.
Qed.

Lemma winner_without_line_witness :
  winner Connect4_init = Return NotOver ∧ winner filled_no_line = Return Draw.
Proof.
  split.
  - refine (proj2 (proj1 (proj2 (proj2
              (winner_without_line Connect4_init _ _)))) _).
    + split; [reflexivity|]. repeat constructor.
    + apply no_line_find. vm_compute. reflexivity.
    + exists 0. split; [lia|reflexivity].
  - refine (proj1 (proj2 (proj2 (proj2
              (winner_without_line filled_no_line _ _)))) _).
    + split; [reflexivity|]. repeat constructor.
    + apply no_line_find. vm_compute. reflexivity.
    + intros r j Hr Hj.
      do 6 (destruct r as [|r]; [do 7 (destruct j as [|j]; [discriminate|]); lia|]).
      lia.
Defined.

(** C6: along a run of calls of [play] from the board of [__init__] that
    all return [True], a column never holds more than 6 marks and never has
    a blank cell below a mark. *)
Theorem successful_plays_stack cols j :
  all_succeed Connect4_init cols → j < 7 →
  occupied (board (plays Connect4_init cols)) j ≤ 6 ∧
  ∀ r r', r < r' < 6 →
    cellv (board (plays Connect4_init cols)) r j ≠ Blank →
    cellv (board (plays Connect4_init cols)) r' j ≠ Blank.
Proof.
  intros _ Hj.
  pose proof (reachable_inv _ (plays_reachable _ cols reachable_init)) as [Hwf _ _ Hst].
  split; [by apply occupied_le_6|]. by apply Hst.
Qed.

Lemma successful_plays_stack_witness :
  occupied (board (plays Connect4_init [3; 3; 4]%Z)) 3 ≤ 6 ∧
  ∀ r r', r < r' < 6 →
    cellv (board (plays Connect4_init [3; 3; 4]%Z)) r 3 ≠ Blank →
    cellv (board (plays Connect4_init [3; 3; 4]%Z)) r' 3 ≠ Blank.
Proof.
  apply (successful_plays_stack [3; 3; 4]%Z 3).
  - simpl. repeat split; reflexivity.
  - lia.
Defined.

(** C7: when the column the index selects has no blank cell in the rows
    [play] visits (so in particular when it has no blank cell at all),
    [play] returns [False] and the grid and [current_player] are what they
    were; any call that does not return [True] leaves the state unchanged,
    and [current_player] changes only when the call returns [True]. *)
Theorem play_failure_keeps_state s col j :
  wf_board (board s) → py_index 7 col = Some j →
  ((∀ r, 1 ≤ r ≤ 5 → cellv (board s) r j ≠ Blank) →
   play s col = (Returned false, s)) ∧
  ((∀ r, r < 6 → cellv (board s) r j ≠ Blank) →
   play s col = (Returned false, s)) ∧
  ((play s col).1 ≠ Returned true → (play s col).2 = s) ∧
  (current_player (play s col).2 ≠ current_player s →
   (play s col).1 = Returned true).
Proof.
  intros Hwf Hj.
  assert ((∀ r, 1 ≤ r ≤ 5 → cellv (board s) r j ≠ Blank) →
          play s col = (Returned false, s)) as Hfull.
  { intros Hno. pose proof (play_cases s Hwf col) as H. rewrite Hj in H.
    destruct H as [[_ ->]|(r & Hr & Hb & _)]; [done|]. by destruct (Hno r). }
  split_and!.
  - done.
  - intros Hno. apply Hfull. intros r Hr. apply Hno. lia.
  - by apply play_not_true_same.
  - intros Hcp. destruct (decide ((play s col).1 = Returned true)) as [|Hne]; [done|].
    destruct Hcp. by rewrite play_not_true_same.
Qed.

Lemma play_failure_keeps_state_witness :
  play five_in_column_0 0 = (Returned false, five_in_column_0).
Proof.
  refine (proj1 (play_failure_keeps_state five_in_column_0 0 0 _ _) _).
  - split; [reflexivity|]. repeat constructor.
  - reflexivity.
  - intros r Hr.
    do 6 (destruct r as [|r]; [first [lia | discriminate]|]). lia.
Defined.

(** C8: [winner] returns the mark of the first winning line of the scan
    order: the lines across, rows top to bottom and left to right; then the
    lines down, columns left to right and top to bottom; then the diagonals,
    anchors top to bottom and left to right with both orientations taken at
    each anchor.  This holds whatever lines of whatever marks coexist. *)
Theorem winner_first_line s :
  wf_board (board s) →
  scan_order = horizontal_lines ++ vertical_lines ++ diagonal_lines ∧
  (∀ before l after,
     scan_order = before ++ l :: after →
     Forall (λ l', wins (board s) l' = false) before →
     wins (board s) l = true →
     winner s = Return (Won (line_mark (board s) l))) ∧
  (∀ m, winner s = Return (Won m) →
     ∃ l, find (wins (board s)) scan_order = Some l ∧ line_mark (board s) l = m).
Proof.
  intros Hwf. split_and!; [done|..].
  - intros before l after Hscan Hbefore Hl. rewrite winner_scan, Hscan by done.
    clear Hscan. induction Hbefore as [|l' before Hl' _ IH]; simpl.
    + by rewrite Hl.
    + by rewrite Hl'.
  - intros m Hm. rewrite winner_scan in Hm by done.
    destruct (find _ _) as [l|]; [|by destruct (top_has_blank _)].
    exists l. split; [done|]. by injection Hm.
Qed.

Lemma winner_first_line_witness : winner two_lines = Return (Won Yellow).
Proof.
  refine (proj1 (proj2 (winner_first_line two_lines _))
            (take 20 scan_order) (across 5 0) (drop 21 scan_order) _ _ _).
  - split; [reflexivity|]. repeat constructor.
  - reflexivity.
  - repeat constructor.
  - reflexivity.
Defined.

(** The two orientations are taken anchor by anchor: the Yellow diagonal
    going down and left from (0, 3) is met at the first anchor, before the
    Red one going down and right from (2, 3). *)
Example winner_two_diagonals : winner two_diagonals = Return (Won Yellow).
Proof. reflexivity. Qed.

(** Four marks of one player in row 3, columns 1 to 4. *)
Example winner_row_3 :
  winner {| board := <[3 := [Blank; Red; Red; Red; Red; Blank; Blank]]>
                       (board Connect4_init);
            current_player := Yellow |} = Return (Won Red).
Proof. reflexivity. Qed.

(** C10: [play] leaves row 0 as it is and changes cells of rows 1 to 5
    only, on every grid and for every index; so in every state reached from
    the board of [__init__] row 0 is blank, a column holds at most 5 marks,
    and [winner] does not return ["D"]. *)
Theorem play_never_fills_top_row :
  (∀ s col c, cellv (board (play s col).2) 0 c = cellv (board s) 0 c) ∧
  (∀ s col r c,
     cellv (board (play s col).2) r c ≠ cellv (board s) r c → 1 ≤ r ≤ 5) ∧
  (∀ s, reachable s →
     (∀ j, j < 7 → cellv (board s) 0 j = Blank ∧ occupied (board s) j ≤ 5) ∧
     winner s ≠ Return Draw).
Proof.
  split_and!.
  - intros s col c. apply play_rows_other_rows. set_solver.
  - intros s col r c Hne.
    destruct (decide (1 ≤ r ≤ 5)) as [|Hr]; [done|]. destruct Hne.
    apply play_rows_other_rows. change (range_down 5 0) with [5; 4; 3; 2; 1].
    rewrite !not_elem_of_cons. split_and!; (lia || apply not_elem_of_nil).
  - intros s [Hwf _ Htop _]%reachable_inv. split.
    + intros j Hj. split; [by apply Htop|]. apply occupied_le_5; auto.
    + rewrite winner_scan by done. destruct (find _ _); [done|].
      assert (top_has_blank (board s) = true) as ->; [|done].
      apply top_has_blank_true. exists 0. split; [lia|]. apply Htop. lia.
Qed.

(** C3: [update] returns, and stores for [(state, action)] the value
    [q + alpha * (reward + gamma * m - q)], where [q] is the value stored
    before ([0] when there was none) and [m] is the [max] of the values
    stored for [next_state] and the seven columns 0 to 6 ([0] for a missing
    one): [m] is one of these seven and none of them compares greater.  No
    other entry of the table changes, nor do [alpha] and [gamma]. *)
Theorem update_bellman ag state action reward next_state :
  let q := Q_get (Q ag) state action in
  let nexts := (λ a, Q_get (Q ag) next_state (Z.of_nat a)) <$> range 7 in
  ∃ m ag',
    py_max nexts = Some m ∧
    m ∈ nexts ∧ (∀ v, v ∈ nexts → (m <? v)%float = false) ∧
    update ag state action reward next_state = Some ag' ∧
    Q ag' !! (state, action) =
      Some (q + alpha ag * (reward + gamma ag * m - q))%float ∧
    (∀ k, k ≠ (state, action) → Q ag' !! k = Q ag !! k) ∧
    alpha ag' = alpha ag ∧ gamma ag' = gamma ag.
Proof.
  intros q nexts.
  destruct (py_max nexts) as [m|] eqn:Hm; [|done].
  destruct (py_max_greatest _ _ Hm) as [Hin Hmax].
  eexists m, _. split_and!; [done|done|done|..].
  - unfold update. fold nexts. rewrite Hm. reflexivity.
  - simpl. by rewrite lookup_insert_eq.
  - intros k Hk. simpl. by rewrite lookup_insert_ne.
  - done.
  - done.
Qed.

(** One step from an empty table with reward 1: the value moves from 0 to
    [0.1 * 1]. *)
Example update_first_reward :
  Q <$> update (QLearningAgent_init None None) "s" 3 1 "t"
  = Some {[ ("s", 3%Z) := 0.1%float ]}.
Proof. vm_compute. reflexivity. Qed.

(** C9 (what the claim says fails): [alpha = 5] lies outside (0, 1], and
    the constructor returns an agent that holds 5. *)
Lemma init_accepts_alpha_out_of_range :
  valid_config 5 0.9 = false ∧
  alpha (QLearningAgent_init (Some 5%float) None) = 5%float.
Proof. split; reflexivity. Qed.

(** C9, amended: the constructor takes [alpha] and [gamma], with defaults
    0.1 and 0.9, stores what it is given without a check, and starts from an
    empty table; there is no [epsilon] option: whatever the agent,
    [choose_action] explores exactly when [random.random()] is below the
    constant 0.1. *)
Theorem init_defaults_and_no_validation :
  alpha (QLearningAgent_init None None) = 0.1%float ∧
  gamma (QLearningAgent_init None None) = 0.9%float ∧
  (∀ a g, alpha (QLearningAgent_init (Some a) (Some g)) = a ∧
          gamma (QLearningAgent_init (Some a) (Some g)) = g) ∧
  (∀ a g, Q (QLearningAgent_init a g) = ∅) ∧
  (∀ ag env u k, (u <? 0.1)%float = true →
     choose_action ag env u k = (Returned (Some k), env)) ∧
  (∀ ag env u k, (u <? 0.1)%float = false →
     (choose_action ag env u k).2 =
       (valid_actions (Z.of_nat <$> range 7) env).2).
Proof.
  split_and!; try done.
  - intros ag env u k Hu. unfold choose_action. by rewrite Hu.
  - intros ag env u k Hu. unfold choose_action. rewrite Hu.
    by destruct (valid_actions _ _) as [[[|??]|] ?].
Qed.

(** C2: when [random.random()] is not below 0.1, [choose_action] leaves the
    environment in the state reached by calling [play] on the columns 0 to 6
    in turn: every column that could take a mark holds one more, the other
    columns are as they were, [current_player] has been toggled once per
    mark placed, and the column returned is one of those that took a mark.
    Nothing is taken back: with a playable column the environment handed
    back differs from the one received. *)
Theorem choose_action_exploit_plays_on_board ag env u k :
  wf_board (board env) → current_player env ≠ Blank →
  (u <? 0.1)%float = false →
  let out := choose_action ag env u k in
  let valid := filter (playable (board env)) (range 7) in
  out.2 = plays env (Z.of_nat <$> range 7) ∧
  (∀ j, j < 7 → playable (board env) j →
        occupied (board out.2) j = S (occupied (board env) j)) ∧
  (∀ j, j < 7 → ¬ playable (board env) j →
        column (board out.2) j = column (board env) j) ∧
  current_player out.2 =
    Nat.iter (length valid) other_player (current_player env) ∧
  (valid = [] → out.1 = Returned None) ∧
  (valid ≠ [] →
   (∃ j, j ∈ valid ∧ out.1 = Returned (Some (Z.of_nat j))) ∧ out.2 ≠ env).
Proof.
  intros Hwf Hcp Hu out valid.
  assert (out = choose_action ag env u k) as Hout by done.
  rewrite choose_action_exploit in Hout by done. fold valid in Hout.
  destruct (valid_actions_columns (range 7) env Hwf Hcp)
    as (_ & Hwf' & Hocc & Hcol & Hcur).
  { apply NoDup_seq. }
  { apply Forall_forall. by intros j ?%elem_of_range. }
  rewrite Hout. cbn [fst snd].
  assert (∀ j, j < 7 → playable (board env) j →
               occupied (board (plays env (Z.of_nat <$> range 7))) j =
                 S (occupied (board env) j)) as Hocc'.
  { intros j Hj Hpl. apply Hocc; [done| |done]. by apply elem_of_range. }
  split_and!.
  - done.
  - done.
  - intros j Hj Hnpl. apply Hcol; [done|]. by intros [_ ?].
  - done.
  - by intros ->.
  - intros Hne. split.
    + destruct valid as [|j0 rest] eqn:Hvalid; [done|].
      rewrite fmap_cons.
      pose proof (foldl_best_step_in (Q ag) (get_state env)
        (Z.of_nat j0 :: (Z.of_nat <$> rest)) (Z.of_nat j0, neg_infinity)) as Hin.
      cbn [fst] in Hin. rewrite <- !fmap_cons in Hin.
      assert (∀ a, a ∈ Z.of_nat j0 :: (Z.of_nat <$> j0 :: rest) →
                   ∃ j, j ∈ j0 :: rest ∧ a = Z.of_nat j) as Hall.
      { intros a [->|(j & -> & ?)%list_elem_of_fmap]%elem_of_cons;
          [exists j0; split; [left|done]|by exists j]. }
      destruct (Hall _ Hin) as (j & Hj & Heq). exists j. split; [done|].
      by rewrite <- Heq.
    + intros Heq. destruct valid as [|j0 rest] eqn:Hvalid; [done|].
      assert (j0 ∈ valid) as Hj0 by (rewrite Hvalid; left).
      apply list_elem_of_filter in Hj0 as [Hpl Hj0%elem_of_range].
      specialize (Hocc' j0 Hj0 Hpl). rewrite Heq in Hocc'. lia.
Qed.

Lemma choose_action_exploit_plays_on_board_witness :
  let out := choose_action (QLearningAgent_init None None) Connect4_init 0.5 0 in
  let valid := filter (playable (board Connect4_init)) (range 7) in
  out.2 = plays Connect4_init (Z.of_nat <$> range 7) ∧
  (∀ j, j < 7 → playable (board Connect4_init) j →
        occupied (board out.2) j = S (occupied (board Connect4_init) j)) ∧
  (∀ j, j < 7 → ¬ playable (board Connect4_init) j →
        column (board out.2) j = column (board Connect4_init) j) ∧
  current_player out.2 =
    Nat.iter (length valid) other_player (current_player Connect4_init) ∧
  (valid = [] → out.1 = Returned None) ∧
  (valid ≠ [] →
   (∃ j, j ∈ valid ∧ out.1 = Returned (Some (Z.of_nat j))) ∧
   out.2 ≠ Connect4_init).
Proof.
  apply (choose_action_exploit_plays_on_board
           (QLearningAgent_init None None) Connect4_init 0.5 0).
  - split; [reflexivity|]. repeat constructor.
  - discriminate.
  - reflexivity.
Defined.

(** The same call evaluated: seven marks lie on the bottom row, it is
    Yellow's turn, and column 0 is returned. *)
Example choose_action_on_new_board :
  choose_action (QLearningAgent_init None None) Connect4_init 0.5 0 =
    (Returned (Some 0%Z),
     {| board :=
          replicate 5 (replicate 7 Blank) ++
          [[Red; Yellow; Red; Yellow; Red; Yellow; Red]];
        current_player := Yellow |}).
Proof. vm_compute. reflexivity. Qed.

(** C4 (the code departs from the claim): after five rounds of [play] on
    the columns 0 to 6 no call of [play] places a mark, and the same holds on
    a grid with no blank cell; yet with [random.random()] at 0.05 and
    [random.randint(0, 6)] at 3 [choose_action] returns the column 3 on
    both, not [None]. *)
Theorem choose_action_explores_without_legal_move :
  reachable five_rounds ∧
  (∀ col, (play five_rounds col).1 ≠ Returned true) ∧
  (∀ col, (play filled_no_line col).1 ≠ Returned true) ∧
  (0.05 <? 0.1)%float = true ∧
  choose_action (QLearningAgent_init None None) five_rounds 0.05 3 =
    (Returned (Some 3%Z), five_rounds) ∧
  choose_action (QLearningAgent_init None None) filled_no_line 0.05 3 =
    (Returned (Some 3%Z), filled_no_line).
Proof.
  assert (∀ s, wf_board (board s) →
               (∀ r j, 1 ≤ r ≤ 5 → j < 7 → cellv (board s) r j ≠ Blank) →
               ∀ col, (play s col).1 ≠ Returned true) as Hstuck.
  { intros s Hwf Hfull col. pose proof (play_cases s Hwf col) as H.
    destruct (py_index 7 col) as [j|] eqn:Hj; [|by rewrite H].
    apply py_index_lt in Hj.
    destruct H as [[_ ->]|(r & Hr & Hb & _)]; [done|].
    by destruct (Hfull r j Hr Hj). }
  split_and!.
  - apply plays_reachable, reachable_init.
  - rewrite five_rounds_board. apply Hstuck.
    + split; [reflexivity|]. repeat constructor.
    + intros r j Hr Hj.
      do 6 (destruct r as [|r];
            [first [lia | do 7 (destruct j as [|j]; [discriminate|]); lia]|]).
      lia.
  - apply Hstuck.
    + split; [reflexivity|]. repeat constructor.
    + intros r j Hr Hj. apply cellv_filled_no_line; lia.
  - reflexivity.
  - rewrite five_rounds_board. reflexivity.
  - reflexivity.
Qed.

(** Without exploration the same grid gives [None]. *)
Example choose_action_exploits_without_legal_move :
  choose_action (QLearningAgent_init None None) filled_no_line 0.5 3 =
    (Returned None, filled_no_line).
Proof. vm_compute. reflexivity. Qed.

(** * Further properties of the code *)

(** ** [Connect4.play] *)

(** On a grid of the right shape [play] depends on the column the index
    selects, not on the index. *)
Lemma play_by_index s col col' :
  wf_board (board s) → py_index 7 col = py_index 7 col' →
  play s col = play s col'.
Proof.
  intros Hwf Heq. unfold play. change (range_down 5 0) with [5; 4; 3; 2; 1].
  rewrite !(play_rows_cons s Hwf) by lia. rewrite Heq.
  by destruct (py_index 7 col').
Qed.

(** X1: [play] returns [True] exactly when the column has a blank cell in
    rows 1 to 5; the mark of the player to move then lands on the lowest of
    these blank cells, every other cell keeps its value, and the turn passes
    to the other player. *)
Theorem play_lands_on_lowest_blank s col j :
  wf_board (board s) → py_index 7 col = Some j →
  ((play s col).1 = Returned true ↔ playable (board s) j) ∧
  ((play s col).1 = Returned true →
   ∃ r, 1 ≤ r ≤ 5 ∧ cellv (board s) r j = Blank ∧
        (∀ r', r < r' ≤ 5 → cellv (board s) r' j ≠ Blank) ∧
        cellv (board (play s col).2) r j = current_player s ∧
        (∀ r' j', (r', j') ≠ (r, j) →
           cellv (board (play s col).2) r' j' = cellv (board s) r' j') ∧
        current_player (play s col).2 = other_player (current_player s)).
Proof.
  intros Hwf Hj. pose proof (play_cases s Hwf col) as H. rewrite Hj in H.
  pose proof (py_index_lt _ _ _ Hj) as Hlt.
  destruct H as [[Hno ->]|(r & Hr & Hb & Hbelow & ->)]; simpl.
  - split; [|done]. split; [done|].
    intros (r & Hr & Hb)%playable_rows. by destruct (Hno r).
  - split.
    { split; [|done]. intros _. apply playable_rows. eauto. }
    intros _. exists r. split_and!; [lia|lia|done|done|..|done].
    + rewrite cellv_set_cell by (done || lia). by rewrite decide_True.
    + intros r' j' Hne. rewrite cellv_set_cell by (done || lia).
      rewrite decide_False; [done|]. intros [-> ->]. done.
Qed.

Lemma play_lands_on_lowest_blank_witness :
  (play Connect4_init 3).1 = Returned true ↔ playable (board Connect4_init) 3.
Proof.
  refine (proj1 (play_lands_on_lowest_blank Connect4_init 3 3 _ _)).
  - split; [reflexivity|]. repeat constructor.
  - reflexivity.
Defined.

(** X2: on a grid of the right shape [play] raises [IndexError] exactly for
    an index outside -7..6, and then changes nothing; an index from -7 to -1
    acts as the column 7 places further. *)
Theorem play_index_bounds s col :
  wf_board (board s) →
  ((play s col).1 = IndexError ↔ ¬ (-7 ≤ col ≤ 6)%Z) ∧
  ((play s col).1 = IndexError → (play s col).2 = s) ∧
  ((-7 ≤ col < 0)%Z → play s col = play s (col + 7)).
Proof.
  intros Hwf. pose proof (play_cases s Hwf col) as H. split_and!.
  - destruct (py_index 7 col) as [j|] eqn:Hj.
    + assert (-7 ≤ col ≤ 6)%Z.
      { unfold py_index in Hj. repeat case_decide; (done || lia). }
      split; [|lia]. by destruct H as [[_ ->]|(r & _ & _ & _ & ->)].
    + rewrite H. split; [|done]. intros _.
      unfold py_index in Hj. repeat case_decide; (done || lia).
  - intros Herr. apply play_not_true_same; [done|]. by rewrite Herr.
  - intros Hcol. apply play_by_index; [done|]. unfold py_index.
    repeat case_decide; try lia; f_equal; lia.
Qed.

Lemma play_index_bounds_witness :
  play Connect4_init (-1) = play Connect4_init 6 ∧
  (play Connect4_init 7).1 = IndexError.
Proof.
  split.
  - refine (proj2 (proj2 (play_index_bounds Connect4_init (-1) _)) _).
    + split; [reflexivity|]. repeat constructor.
    + lia.
  - refine (proj2 (proj1 (play_index_bounds Connect4_init 7 _)) _).
    + split; [reflexivity|]. repeat constructor.
    + lia.
Defined.

(** ** Runs of [play] from the board of [__init__] *)

(** A call on a grid of the right shape either places one mark or leaves
    the state alone. *)
Lemma play_step s col :
  wf_board (board s) →
  (∃ r j, 1 ≤ r ≤ 5 ∧ j < 7 ∧ cellv (board s) r j = Blank ∧
          play s col = (Returned true, place s r j)) ∨
  ((play s col).1 ≠ Returned true ∧ (play s col).2 = s).
Proof.
  intros Hwf. pose proof (play_cases s Hwf col) as H.
  destruct (py_index 7 col) as [j|] eqn:Hj; [|right; by rewrite H].
  apply py_index_lt in Hj.
  destruct H as [[_ ->]|(r & Hr & Hb & _ & ->)]; [by right|left]. eauto 10.
Qed.

Lemma successes_snoc s cols col :
  successes s (cols ++ [col]) =
    successes s cols +
    (if decide ((play (plays s cols) col).1 = Returned true) then 1 else 0).
Proof.
  revert s. induction cols as [|c cols IH]; intros s; simpl; [lia|].
  rewrite IH. lia.
Qed.

Lemma occupied_set_cell_at b r j x j' :
  wf_board b → r < 6 → j < 7 → j' < 7 → cellv b r j = Blank → x ≠ Blank →
  occupied (set_cell b r j x) j' =
    occupied b j' + (if decide (j' = j) then 1 else 0).
Proof.
  intros Hwf Hr Hj Hj' Hb Hx. case_decide as Hjj.
  - subst. rewrite occupied_set_cell by done. lia.
  - unfold occupied. rewrite column_set_cell_ne by done. lia.
Qed.

Lemma total_marks_set_cell b r j x :
  wf_board b → r < 6 → j < 7 → cellv b r j = Blank → x ≠ Blank →
  total_marks (set_cell b r j x) = S (total_marks b).
Proof.
  intros Hwf Hr Hj Hb Hx. unfold total_marks, range. simpl.
  rewrite !(occupied_set_cell_at b r j x) by (done || lia).
  repeat case_decide; lia.
Qed.

Lemma total_marks_le_35 s : board_inv s → total_marks (board s) ≤ 35.
Proof.
  intros [Hwf _ Htop _]. unfold total_marks, range. simpl.
  pose proof (λ j Hj, occupied_le_5 (board s) j Hwf Hj (Htop j Hj)) as H.
  pose proof (H 0). pose proof (H 1). pose proof (H 2). pose proof (H 3).
  pose proof (H 4). pose proof (H 5). pose proof (H 6). lia.
Qed.

Lemma filter_insert_count (row : list cell) j x m :
  row !! j = Some Blank → m ≠ Blank →
  length (filter (λ y, y = m) (<[j:=x]> row)) =
    length (filter (λ y, y = m) row) + (if decide (x = m) then 1 else 0).
Proof.
  revert j. induction row as [|y row IH]; intros [|j] Hj Hm; [done..| |].
  - injection Hj as ->. change (<[0:=x]> (Blank :: row)) with (x :: row).
    rewrite (filter_cons_False _ Blank) by naive_solver.
    rewrite filter_cons. case_decide; simpl; lia.
  - change (<[S j:=x]> (y :: row)) with (y :: <[j:=x]> row).
    rewrite !filter_cons. specialize (IH j Hj Hm).
    destruct (decide (y = m)); simpl; lia.
Qed.

Lemma sum_list_insert {A} (f : A → nat) (l : list A) i x y :
  l !! i = Some x →
  sum_list (f <$> <[i:=y]> l) + f x = sum_list (f <$> l) + f y.
Proof.
  revert i. induction l as [|z l IH]; intros [|i] Hi; simplify_eq/=; [lia|].
  specialize (IH i Hi). lia.
Qed.

Lemma count_cells_set_cell b r j x m :
  wf_board b → r < 6 → j < 7 → cellv b r j = Blank → m ≠ Blank →
  count_cells (set_cell b r j x) m =
    count_cells b m + (if decide (x = m) then 1 else 0).
Proof.
  intros Hwf Hr Hj Hb Hm. unfold count_cells, set_cell.
  destruct (wf_board_row b r Hwf Hr) as (row & Hrow & Hlen). rewrite Hrow.
  pose proof (sum_list_insert (λ row, length (filter (λ x, x = m) row))
                b r row (<[j:=x]> row) Hrow) as Hsum. simpl in Hsum.
  rewrite filter_insert_count in Hsum; [lia| |done].
  pose proof (wf_cell_at b r j Hwf Hr Hj) as Hc. unfold cell_at in Hc.
  rewrite Hrow in Hc. simpl in Hc. by rewrite Hc, Hb.
Qed.

(** X3: along any run of calls of [play] from the board of [__init__],
    with [n] the number of calls that returned [True]: the grid holds [n]
    marks, Red has as many as Yellow when [n] is even and one more when it
    is odd, and it is Red's turn exactly when [n] is even. *)
Theorem plays_take_turns cols :
  let s := plays Connect4_init cols in
  let n := successes Connect4_init cols in
  count_cells (board s) Red + count_cells (board s) Yellow = n ∧
  (if Nat.even n
   then current_player s = Red ∧
        count_cells (board s) Red = count_cells (board s) Yellow
   else current_player s = Yellow ∧
        count_cells (board s) Red = S (count_cells (board s) Yellow)).
Proof.
  induction cols as [|col cols IH] using rev_ind; [done|].
  cbv zeta in *. rewrite plays_snoc, successes_snoc.
  pose proof (reachable_inv _ (plays_reachable _ cols reachable_init))
    as [Hwf _ _ _].
  set (s := plays Connect4_init cols) in *.
  set (n := successes Connect4_init cols) in *.
  destruct IH as [Hsum Hturn].
  destruct (play_step s col Hwf) as [(r & j & Hr & Hj & Hb & Hplay)|[Hno Hsame]].
  - rewrite Hplay. cbn [fst snd]. rewrite decide_True by done.
    replace (n + 1) with (S n) by lia. rewrite Nat.even_succ, <- Nat.negb_even.
    unfold place. cbn [board current_player].
    rewrite !count_cells_set_cell by (done || lia).
    destruct (Nat.even n); destruct Hturn as [Hcp Hc]; rewrite Hcp; simpl.
    + split; [lia|]. split; [done|lia].
    + split; [lia|]. split; [done|lia].
  - rewrite decide_False by done. rewrite Hsame, Nat.add_0_r. done.
Qed.

(** X4: in a run of calls of [play] from the board of [__init__] the seven
    columns together hold as many marks as calls returned [True], and that
    number never exceeds 35: a 36th mark is not accepted. *)
Theorem plays_at_most_35_marks cols :
  total_marks (board (plays Connect4_init cols)) =
    successes Connect4_init cols ∧
  successes Connect4_init cols ≤ 35.
Proof.
  assert (total_marks (board (plays Connect4_init cols)) =
            successes Connect4_init cols) as Heq.
  { induction cols as [|col cols IH] using rev_ind; [done|].
    rewrite plays_snoc, successes_snoc.
    pose proof (reachable_inv _ (plays_reachable _ cols reachable_init))
      as [Hwf Hcp _ _].
    destruct (play_step _ col Hwf) as [(r & j & Hr & Hj & Hb & Hplay)|[Hno Hsame]].
    - rewrite Hplay. cbn [fst snd]. rewrite decide_True by done.
      unfold place. cbn [board].
      rewrite total_marks_set_cell by (done || lia). lia.
    - rewrite decide_False by done. rewrite Hsame. lia. }
  split; [done|]. rewrite <- Heq. apply total_marks_le_35.
  apply reachable_inv, plays_reachable, reachable_init.
Qed.

(** ** [Connect4.winner] and the lines of the grid *)

Lemma wins_line_of_mark b l :
  l ∈ scan_order → wins b l = true →
  line_mark b l ≠ Blank ∧
  ∃ (r c : Z) (d : Z * Z),
    d ∈ directions ∧
    ∀ i : Z, (0 ≤ i < 4)%Z →
      cellz b (r + i * d.1) (c + i * d.2) = Some (line_mark b l).
Proof.
  intros Hl Hw. apply elem_of_scan_order in Hl.
  destruct Hl as [(r & c & ? & ? & ->)|[(r & c & ? & ? & ->)
    |(r & c & ? & ? & [-> | ->])]];
    apply bool_decide_eq_true in Hw; simpl in Hw;
    destruct Hw as (H1 & H2 & H3 & H4); (split; [simpl; congruence|]).
  - exists (Z.of_nat r), (Z.of_nat c), (0, 1)%Z.
    split; [set_solver|]. intros i Hi. simpl.
    assert (i = 0 ∨ i = 1 ∨ i = 2 ∨ i = 3)%Z as [->|[->|[->| ->]]] by lia.
    + rewrite (cellz_nat b _ _ r c) by lia. done.
    + rewrite (cellz_nat b _ _ r (c + 1)) by lia. f_equal. congruence.
    + rewrite (cellz_nat b _ _ r (c + 2)) by lia. f_equal. congruence.
    + rewrite (cellz_nat b _ _ r (c + 3)) by lia. f_equal. congruence.
  - exists (Z.of_nat r), (Z.of_nat c), (1, 0)%Z.
    split; [set_solver|]. intros i Hi. simpl.
    assert (i = 0 ∨ i = 1 ∨ i = 2 ∨ i = 3)%Z as [->|[->|[->| ->]]] by lia.
    + rewrite (cellz_nat b _ _ r c) by lia. done.
    + rewrite (cellz_nat b _ _ (r + 1) c) by lia. f_equal. congruence.
    + rewrite (cellz_nat b _ _ (r + 2) c) by lia. f_equal. congruence.
    + rewrite (cellz_nat b _ _ (r + 3) c) by lia. f_equal. congruence.
  - exists (Z.of_nat r), (Z.of_nat c), (1, 1)%Z.
    split; [set_solver|]. intros i Hi. simpl.
    assert (i = 0 ∨ i = 1 ∨ i = 2 ∨ i = 3)%Z as [->|[->|[->| ->]]] by lia.
    + rewrite (cellz_nat b _ _ r c) by lia. done.
    + rewrite (cellz_nat b _ _ (r + 1) (c + 1)) by lia. f_equal. congruence.
    + rewrite (cellz_nat b _ _ (r + 2) (c + 2)) by lia. f_equal. congruence.
    + rewrite (cellz_nat b _ _ (r + 3) (c + 3)) by lia. f_equal. congruence.
  - exists (Z.of_nat r), (Z.of_nat (c + 3)), (1, -1)%Z.
    split; [set_solver|]. intros i Hi. simpl.
    assert (i = 0 ∨ i = 1 ∨ i = 2 ∨ i = 3)%Z as [->|[->|[->| ->]]] by lia.
    + rewrite (cellz_nat b _ _ r (c + 3)) by lia. done.
    + rewrite (cellz_nat b _ _ (r + 1) (c + 2)) by lia. f_equal. congruence.
    + rewrite (cellz_nat b _ _ (r + 2) (c + 1)) by lia. f_equal. congruence.
    + rewrite (cellz_nat b _ _ (r + 3) c) by lia. f_equal. congruence.
Qed.

(** X5: on a 6 by 7 grid [winner] raises nothing, and it returns a mark
    exactly when the grid has four identical marks in a line; the mark it
    returns is ["R"] or ["Y"] and is the mark of such a line. *)
Theorem winner_detects_lines s :
  wf_board (board s) →
  (∃ v, winner s = Return v) ∧
  ((∃ m, winner s = Return (Won m)) ↔ four_in_a_row (board s)) ∧
  (∀ m, winner s = Return (Won m) →
     (m = Red ∨ m = Yellow) ∧
     ∃ (r c : Z) (d : Z * Z),
       d ∈ directions ∧
       ∀ i : Z, (0 ≤ i < 4)%Z →
         cellz (board s) (r + i * d.1) (c + i * d.2) = Some m).
Proof.
  intros Hwf. pose proof (winner_scan s Hwf) as Hw.
  destruct (find (wins (board s)) scan_order) as [l|] eqn:Hf.
  - apply find_some in Hf as [Hl Hwin]. apply list_elem_of_In in Hl.
    destruct (wins_line_of_mark _ _ Hl Hwin) as [Hm Hline].
    split_and!.
    + eauto.
    + split; [intros _; by eapply wins_four_in_a_row|eauto].
    + intros m Hret. rewrite Hw in Hret. injection Hret as <-.
      split; [|done]. destruct (line_mark (board s) l); auto. done.
  - apply no_line_find in Hf. split_and!.
    + destruct (top_has_blank _); eauto.
    + split; [|done]. intros [m Hm]. rewrite Hw in Hm.
      by destruct (top_has_blank _).
    + intros m Hm. rewrite Hw in Hm. by destruct (top_has_blank _).
Qed.

Lemma winner_detects_lines_witness :
  (∃ m, winner two_lines = Return (Won m)) ↔ four_in_a_row (board two_lines).
Proof.
  refine (proj1 (proj2 (winner_detects_lines two_lines _))).
  split; [reflexivity|]. repeat constructor.
Defined.

(** ** [QLearningAgent.get_state] and [Connect4.print_board] *)

Lemma string_app_cons a (x y : string) : String a x +:+ y = String a (x +:+ y).
Proof. done. Qed.

Lemma string_app_nil_l (y : string) : "" +:+ y = y.
Proof. done. Qed.

Lemma string_app_nil_r (x : string) : x +:+ "" = x.
Proof.
  induction x as [|a x IH]; [done|]. by rewrite string_app_cons, IH.
Qed.

Lemma string_concat_cons (x : string) (xs : list string) :
  String.concat "" (x :: xs) = x +:+ String.concat "" xs.
Proof.
  destruct xs as [|y xs]; [|done].
  change (String.concat "" [x]) with x. change (String.concat "" []) with "".
  by rewrite string_app_nil_r.
Qed.

Lemma string_app_length (x y : string) :
  String.length (x +:+ y) = String.length x + String.length y.
Proof.
  induction x as [|a x IH]; [done|].
  rewrite string_app_cons. simpl. by rewrite IH.
Qed.

Lemma string_app_inj (x x' y y' : string) :
  String.length x = String.length x' → x +:+ y = x' +:+ y' → x = x' ∧ y = y'.
Proof.
  revert x'. induction x as [|a x IH]; intros [|a' x'] Hlen Heq; try done.
  rewrite !string_app_cons in Heq. injection Heq as -> Heq.
  injection Hlen as Hlen. destruct (IH x' Hlen Heq) as [-> ->]. done.
Qed.

Lemma cell_str_inj c c' : cell_str c = cell_str c' → c = c'.
Proof. by destruct c, c'. Qed.

Lemma row_key_length (row : list cell) :
  String.length (String.concat "" (map cell_str row)) = length row.
Proof.
  induction row as [|c row IH]; [done|].
  change (map cell_str (c :: row)) with (cell_str c :: map cell_str row).
  rewrite string_concat_cons, string_app_length, IH. by destruct c.
Qed.

Lemma row_key_inj (row row' : list cell) :
  String.concat "" (map cell_str row) = String.concat "" (map cell_str row') →
  row = row'.
Proof.
  revert row'. induction row as [|c row IH]; intros [|c' row'] Heq; [done|..].
  - apply (f_equal String.length) in Heq. rewrite !row_key_length in Heq. done.
  - apply (f_equal String.length) in Heq. rewrite !row_key_length in Heq. done.
  - change (map cell_str (c :: row)) with (cell_str c :: map cell_str row) in Heq.
    change (map cell_str (c' :: row')) with (cell_str c' :: map cell_str row') in Heq.
    rewrite !string_concat_cons in Heq.
    apply string_app_inj in Heq as [Hc Hrow]; [|by destruct c, c'].
    apply cell_str_inj in Hc as ->. by rewrite (IH row').
Qed.

Lemma board_key_length (b : list (list cell)) :
  Forall (λ r, length r = 7) b →
  String.length
    (String.concat "" (map (λ row, String.concat "" (map cell_str row)) b)) =
  7 * length b.
Proof.
  induction 1 as [|row b Hrow _ IH]; [done|].
  rewrite map_cons, string_concat_cons, string_app_length, IH, row_key_length.
  simpl. lia.
Qed.

Lemma board_key_inj (b b' : list (list cell)) :
  Forall (λ r, length r = 7) b → Forall (λ r, length r = 7) b' →
  String.concat "" (map (λ row, String.concat "" (map cell_str row)) b) =
  String.concat "" (map (λ row, String.concat "" (map cell_str row)) b') →
  b = b'.
Proof.
  intros Hb. revert b'. induction Hb as [|row b Hrow Hb IH];
    intros b' Hb' Heq; destruct Hb' as [|row' b' Hrow' Hb'].
  - done.
  - apply (f_equal String.length) in Heq.
    rewrite (board_key_length (row' :: b')) in Heq by by constructor.
    simpl in Heq. lia.
  - apply (f_equal String.length) in Heq.
    rewrite (board_key_length (row :: b)) in Heq by by constructor.
    simpl in Heq. lia.
  - rewrite !map_cons, !string_concat_cons in Heq.
    apply string_app_inj in Heq as [Hr Hrest];
      [|by rewrite !row_key_length, Hrow, Hrow'].
    apply row_key_inj in Hr as ->. by rewrite (IH b').
Qed.

(** X6: the state key of a 6 by 7 board has 42 characters, and two such
    boards have the same key exactly when they have the same cells; whose
    turn it is plays no part. *)
Theorem get_state_identifies_grid s s' :
  wf_board (board s) → wf_board (board s') →
  String.length (get_state s) = 42 ∧
  (get_state s = get_state s' ↔ board s = board s').
Proof.
  intros [Hlen Hrows] [Hlen' Hrows']. unfold get_state. split.
  - rewrite board_key_length by done. lia.
  - split; [by apply board_key_inj|by intros ->].
Qed.

Lemma get_state_identifies_grid_witness :
  String.length (get_state Connect4_init) = 42 ∧
  (get_state Connect4_init = get_state (place Connect4_init 5 3) ↔
   board Connect4_init = board (place Connect4_init 5 3)).
Proof.
  apply (get_state_identifies_grid Connect4_init (place Connect4_init 5 3)).
  - split; [reflexivity|]. repeat constructor.
  - split; [reflexivity|]. repeat constructor.
Defined.

(** Rows of unequal lengths can share a key: the key alone does not tell
    where one row ends. *)
Example get_state_ragged_rows :
  get_state {| board := [[Red]; []]; current_player := Red |} =
  get_state {| board := [[]; [Red]]; current_player := Red |}.
Proof. reflexivity. Qed.

Lemma print_cell_length (c : cell) : String.length (cell_str c +:+ "|") = 2.
Proof. by destruct c. Qed.

Lemma print_row_length (row : list cell) :
  String.length (print_row row) = 2 * length row + 1.
Proof.
  unfold print_row. rewrite string_app_length.
  assert (String.length
            (foldr (λ cell line, (cell_str cell +:+ "|") +:+ line) "" row) =
          2 * length row) as ->; [|simpl; lia].
  induction row as [|c row IH]; [done|].
  rewrite foldr_cons, string_app_length, print_cell_length, IH. simpl. lia.
Qed.

Lemma print_row_inj (row row' : list cell) :
  print_row row = print_row row' → row = row'.
Proof.
  unfold print_row. intros [_ Heq]%string_app_inj; [|done].
  revert row' Heq.
  induction row as [|c row IH]; intros [|c' row'] Heq; [done|..].
  - apply (f_equal String.length) in Heq.
    rewrite foldr_cons, string_app_length, print_cell_length in Heq. done.
  - apply (f_equal String.length) in Heq.
    rewrite foldr_cons, string_app_length, print_cell_length in Heq. done.
  - rewrite !foldr_cons in Heq.
    apply string_app_inj in Heq as [Hc Hrow];
      [|by rewrite !print_cell_length].
    assert (c = c') as -> by by destruct c, c'.
    by rewrite (IH row').
Qed.

(** X7: [print_board] writes one line per row, of twice the length of the
    row plus one characters, and the lines determine the grid: boards that
    print alike have the same cells. *)
Theorem print_board_shows_grid s s' :
  length (print_board s) = length (board s) ∧
  (∀ i row, board s !! i = Some row →
     ∃ line, print_board s !! i = Some line ∧
             String.length line = 2 * length row + 1) ∧
  (print_board s = print_board s' → board s = board s').
Proof.
  unfold print_board. split_and!.
  - by rewrite length_fmap.
  - intros i row Hrow. exists (print_row row).
    rewrite list_lookup_fmap, Hrow. split; [done|apply print_row_length].
  - intros Heq. apply list_eq. intros i.
    apply (f_equal (λ l, l !! i)) in Heq. rewrite !list_lookup_fmap in Heq.
    destruct (board s !! i) as [row|], (board s' !! i) as [row'|];
      try done.
    f_equal. apply print_row_inj.
    change (Some (print_row row) = Some (print_row row')) in Heq.
    congruence.
Qed.

Example print_board_after_one_move :
  print_board (place Connect4_init 5 3) =
    [ "| | | | | | | |"; "| | | | | | | |"; "| | | | | | | |";
      "| | | | | | | |"; "| | | | | | | |"; "| | | |R| | | |" ].
Proof. reflexivity. Qed.

(** ** The greedy choice of [QLearningAgent.choose_action] *)

Lemma SFltb_leb_trans x y z :
  SFltb x y = true → SFleb y z = true → SFltb x z = true.
Proof.
  unfold SFltb, SFleb, SFcompare.
  destruct x as [[]|[]| |[] m1 e1], y as [[]|[]| |[] m2 e2],
    z as [[]|[]| |[] m3 e3]; try done.
  all: fold (Pos.compare m1 m2); fold (Pos.compare m2 m3);
    fold (Pos.compare m1 m3).
  all: destruct (Z.compare_spec e1 e2), (Z.compare_spec e2 e3),
    (Z.compare_spec e1 e3); try done; try lia.
  all: destruct (Pos.compare_spec m1 m2), (Pos.compare_spec m2 m3),
    (Pos.compare_spec m1 m3); try done; try lia.
Qed.

Lemma ltb_leb_trans (x y z : float) :
  (x <? y)%float = true → (y <=? z)%float = true → (x <? z)%float = true.
Proof. rewrite !ltb_spec, leb_spec. apply SFltb_leb_trans. Qed.

(** Values that do not compare greater than [float('-inf')] do not compare
    greater than one another. *)
Lemma ltb_neg_infinity (x y : float) :
  (neg_infinity <? x)%float = false → (neg_infinity <? y)%float = false →
  (x <? y)%float = false.
Proof.
  rewrite !ltb_spec.
  change (Prim2SF neg_infinity) with (S754_infinity true).
  unfold SFltb, SFcompare.
  by destruct (Prim2SF x) as [[]|[]| |[] m1 e1],
    (Prim2SF y) as [[]|[]| |[] m2 e2].
Qed.

(** The loop over [valid_actions], after any part of the list: either no
    value has compared greater than [-inf] yet, or the pair holds an action
    of the part with its value, the earlier ones do not reach that value and
    none compares greater. *)
Lemma foldl_best_step_inv q state (a0 : Z) (p : list Z) :
  let best := foldl (best_step q state) (a0, neg_infinity) p in
  (best = (a0, neg_infinity) ∧
   ∀ a, a ∈ p → (neg_infinity <? Q_get q state a)%float = false) ∨
  (∃ pre post,
     p = pre ++ best.1 :: post ∧ best.2 = Q_get q state best.1 ∧
     (∀ a, a ∈ pre → (Q_get q state best.1 <=? Q_get q state a)%float = false) ∧
     (∀ a, a ∈ p → (Q_get q state best.1 <? Q_get q state a)%float = false)).
Proof.
  induction p as [|a p IH] using rev_ind; cbv zeta.
  { left. split; [done|]. by intros a ?%elem_of_nil. }
  rewrite foldl_app. cbv zeta in IH. cbn [foldl].
  destruct (foldl (best_step q state) (a0, neg_infinity) p) as [b v].
  cbn [fst snd] in IH. unfold best_step. cbn [fst snd].
  assert (∀ x, x ∈ p → (v <? Q_get q state x)%float = false) as Hv_max.
  { destruct IH as [[[= -> ->] Hall]|(pre & post & _ & -> & _ & Hall)]; done. }
  destruct (v <? Q_get q state a)%float eqn:Hlt; cbn [fst snd].
  - right. exists p, []. split_and!; [done|done|..].
    + intros x Hx.
      destruct (Q_get q state a <=? Q_get q state x)%float eqn:Hle; [|done].
      pose proof (ltb_leb_trans _ _ _ Hlt Hle) as Hbad.
      by rewrite (Hv_max x Hx) in Hbad.
    + intros x [Hx| ->%list_elem_of_singleton]%elem_of_app; [|apply ltb_irrefl].
      destruct (Q_get q state a <? Q_get q state x)%float eqn:Hax; [|done].
      pose proof (ltb_trans _ _ _ Hlt Hax) as Hbad.
      by rewrite (Hv_max x Hx) in Hbad.
  - destruct IH as [[Hb Hall]|(pre & post & Hp & Hv & Hpre & Hall)].
    + left. split; [done|].
      intros x [Hx| ->%list_elem_of_singleton]%elem_of_app; [by apply Hall|].
      injection Hb as _ <-. done.
    + right. exists pre, (post ++ [a]). split_and!; [|done|done|].
      * rewrite Hp at 1. by rewrite <- app_assoc.
      * intros x [Hx| ->%list_elem_of_singleton]%elem_of_app; [by apply Hall|].
        by rewrite <- Hv.
Qed.

Lemma foldl_best_step_greedy q state (a0 : Z) (rest : list Z) :
  let best := (foldl (best_step q state) (a0, neg_infinity) (a0 :: rest)).1 in
  ∃ pre post,
    a0 :: rest = pre ++ best :: post ∧
    (∀ a, a ∈ pre → (Q_get q state best <=? Q_get q state a)%float = false) ∧
    (∀ a, a ∈ a0 :: rest →
          (Q_get q state best <? Q_get q state a)%float = false).
Proof.
  cbv zeta.
  destruct (foldl_best_step_inv q state a0 (a0 :: rest))
    as [[Hb Hall]|(pre & post & Hp & _ & Hpre & Hall)].
  - rewrite Hb. cbn [fst]. exists [], rest. split_and!; [done| |].
    + by intros a ?%elem_of_nil.
    + intros a Ha. apply ltb_neg_infinity; apply Hall; [left|done].
  - eauto.
Qed.

(** X8: when it does not explore and some column can take a mark,
    [choose_action] returns one of the columns that took a mark such that no
    other of them has a stored value that compares greater, and such that
    the value of every one listed before it is not as large: among the best
    columns the lowest-numbered wins.  The values are those stored for the
    board as it was before the marks were placed. *)
Theorem choose_action_greedy ag env u k :
  wf_board (board env) → current_player env ≠ Blank →
  (u <? 0.1)%float = false →
  let acts := Z.of_nat <$> filter (playable (board env)) (range 7) in
  let value a := Q_get (Q ag) (get_state env) a in
  acts ≠ [] →
  ∃ pre best post,
    acts = pre ++ best :: post ∧
    (choose_action ag env u k).1 = Returned (Some best) ∧
    (∀ a, a ∈ pre → (value best <=? value a)%float = false) ∧
    (∀ a, a ∈ acts → (value best <? value a)%float = false).
Proof.
  intros Hwf Hcp Hu acts value Hne.
  rewrite choose_action_exploit by done. fold acts. cbn [fst].
  destruct acts as [|a0 rest]; [done|].
  destruct (foldl_best_step_greedy (Q ag) (get_state env) a0 rest)
    as (pre & post & Hp & Hpre & Hall).
  exists pre, (foldl (best_step (Q ag) (get_state env)) (a0, neg_infinity)
                 (a0 :: rest)).1, post.
  split_and!; [exact Hp|done|exact Hpre|exact Hall].
Qed.

Lemma choose_action_greedy_witness :
  ∃ pre best post,
    Z.of_nat <$> filter (playable (board Connect4_init)) (range 7) =
      pre ++ best :: post ∧
    (choose_action (QLearningAgent_init None None) Connect4_init 0.5 0).1 =
      Returned (Some best) ∧
    (∀ a, a ∈ pre →
       (Q_get ∅ (get_state Connect4_init) best <=?
        Q_get ∅ (get_state Connect4_init) a)%float = false) ∧
    (∀ a, a ∈ Z.of_nat <$> filter (playable (board Connect4_init)) (range 7) →
       (Q_get ∅ (get_state Connect4_init) best <?
        Q_get ∅ (get_state Connect4_init) a)%float = false).
Proof.
  apply (choose_action_greedy (QLearningAgent_init None None) Connect4_init 0.5 0).
  - split; [reflexivity|]. repeat constructor.
  - discriminate.
  - reflexivity.
  - discriminate.
Defined.

Lemma foldl_best_step_unseen q state (acts : list Z) (a : Z) :
  (∀ x, x ∈ acts → q !! (state, x) = None) →
  foldl (best_step q state) (a, 0%float) acts = (a, 0%float).
Proof.
  induction acts as [|x acts IH]; intros Hnone; [done|].
  cbn [foldl]. unfold best_step at 2. unfold Q_get.
  rewrite (Hnone x) by left. cbn [snd default].
  change (0 <? 0)%float with false. cbv iota.
  apply IH. intros y Hy. apply Hnone. by right.
Qed.

Lemma filter_seq_head_least (P : nat → Prop) `{!∀ x, Decision (P x)} i n x l :
  filter P (seq i n) = x :: l → ∀ y, y ∈ l → x < y.
Proof.
  revert i. induction n as [|n IH]; intros i Hf y Hy; [done|].
  simpl in Hf. rewrite filter_cons in Hf. destruct (decide (P i)).
  - injection Hf as <- <-.
    apply list_elem_of_filter in Hy as [_ Hy]. apply elem_of_seq in Hy. lia.
  - by eapply IH.
Qed.

(** X9: when it does not explore and the table has no entry for the state
    and the columns that can take a mark, [choose_action] returns the
    lowest-numbered of these columns. *)
Theorem choose_action_unseen_state ag env u k a0 rest :
  wf_board (board env) → current_player env ≠ Blank →
  (u <? 0.1)%float = false →
  Z.of_nat <$> filter (playable (board env)) (range 7) = a0 :: rest →
  (∀ a, a ∈ a0 :: rest → Q ag !! (get_state env, a) = None) →
  (choose_action ag env u k).1 = Returned (Some a0) ∧
  ∀ a, a ∈ rest → (a0 < a)%Z.
Proof.
  intros Hwf Hcp Hu Hacts Hnone. split.
  - rewrite choose_action_exploit by done. rewrite Hacts. cbn [fst foldl].
    unfold best_step at 2. unfold Q_get at 1 2.
    rewrite (Hnone a0) by left. cbn [snd default].
    change (neg_infinity <? 0)%float with true. cbv iota.
    rewrite foldl_best_step_unseen; [done|].
    intros x Hx. apply Hnone. by right.
  - destruct (filter (playable (board env)) (range 7)) as [|j0 js] eqn:Hf;
      [done|].
    rewrite fmap_cons in Hacts. injection Hacts as <- <-.
    intros a (j & -> & Hj)%list_elem_of_fmap.
    pose proof (filter_seq_head_least _ _ _ _ _ Hf j Hj). lia.
Qed.

Lemma choose_action_unseen_state_witness :
  (choose_action (QLearningAgent_init None None) Connect4_init 0.5 0).1 =
    Returned (Some 0%Z) ∧
  ∀ a, a ∈ [1; 2; 3; 4; 5; 6]%Z → (0 < a)%Z.
Proof.
  apply (choose_action_unseen_state (QLearningAgent_init None None)
           Connect4_init 0.5 0 0 [1; 2; 3; 4; 5; 6]%Z).
  - split; [reflexivity|]. repeat constructor.
  - discriminate.
  - reflexivity.
  - reflexivity.
  - intros a _. reflexivity.
Defined.

(** X10: on a 6 by 7 board [choose_action] returns [None] exactly when it
    does not explore and no column has a blank cell in rows 1 to 5, and it
    then hands the board back as it received it. *)
Theorem choose_action_none ag env u k :
  wf_board (board env) → current_player env ≠ Blank →
  ((choose_action ag env u k).1 = Returned None ↔
   (u <? 0.1)%float = false ∧ ∀ j, j < 7 → ¬ playable (board env) j) ∧
  ((choose_action ag env u k).1 = Returned None →
   (choose_action ag env u k).2 = env).
Proof.
  intros Hwf Hcp.
  destruct (u <? 0.1)%float eqn:Hu.
  { unfold choose_action. rewrite Hu. cbn [fst snd]. split; [|done].
    split; [done|]. by intros [? _]. }
  rewrite choose_action_exploit by done. cbn [fst snd].
  assert (filter (playable (board env)) (range 7) = [] ↔
          ∀ j, j < 7 → ¬ playable (board env) j) as Hnone.
  { split.
    - intros Hf j Hj Hpl. eapply filter_nil_not_elem_of; [exact Hf|exact Hpl|].
      by apply elem_of_range.
    - intros Hall. destruct (filter _ _) as [|j l] eqn:Hf; [done|].
      assert (j ∈ filter (playable (board env)) (range 7)) as Hin
        by (rewrite Hf; left).
      apply list_elem_of_filter in Hin as [Hpl Hj%elem_of_range].
      by destruct (Hall j Hj). }
  destruct (filter (playable (board env)) (range 7)) as [|j0 js] eqn:Hf.
  - split; [split; [by intros _; split; [|apply Hnone]|done]|]. intros _.
    assert (∀ js, Forall (λ j, j < 7 ∧ ¬ playable (board env) j) js →
                  plays env (Z.of_nat <$> js) = env) as Hsame.
    { induction 1 as [|j l [Hj Hnp] _ IH]; [done|].
      rewrite fmap_cons, plays_cons.
      destruct (play_column env j Hwf Hj) as [[? _]|[_ ->]]; done. }
    apply Hsame, Forall_forall. intros j Hj%elem_of_range.
    split; [done|]. by apply Hnone.
  - split; [|done]. split; [done|]. intros [_ Hall%Hnone]. done.
Qed.

Lemma choose_action_none_witness :
  (choose_action (QLearningAgent_init None None) filled_no_line 0.5 0).2 =
    filled_no_line.
Proof.
  refine (proj2 (choose_action_none (QLearningAgent_init None None)
                   filled_no_line 0.5 0 _ _) _).
  - split; [reflexivity|]. repeat constructor.
  - discriminate.
  - reflexivity.
Defined.

(** ** Runs of [QLearningAgent.update] *)

(** X11: any run of calls of [update] returns; the table then has the keys
    it had and the pairs (state, action) of the calls, no key is lost, and
    [alpha], [gamma] and the name are what they were. *)
Theorem updates_grow_table ag es :
  ∃ ag',
    updates ag es = Some ag' ∧
    dom (Q ag') = dom (Q ag) ∪ list_to_set ((λ e : experience, (e.1.1.1, e.1.1.2)) <$> es) ∧
    alpha ag' = alpha ag ∧ gamma ag' = gamma ag ∧ name ag' = name ag.
Proof.
  revert ag. induction es as [|[[[state action] reward] next_state] es IH];
    intros ag.
  { exists ag. split_and!; try done. set_solver. }
  cbn [updates]. unfold update at 1.
  change (py_max _) with
    (Some (foldl (λ m y, if (m <? y)%float then y else m)
             (Q_get (Q ag) next_state 0)
             ((λ a, Q_get (Q ag) next_state (Z.of_nat a)) <$> seq 1 6))).
  cbn [mbind option_bind].
  match goal with |- context [updates ?a es] => destruct (IH a) as (ag' & -> & Hdom & Ha & Hg & Hn) end.
  exists ag'. split_and!; [done| |done..].
  rewrite Hdom. cbn [Q]. rewrite dom_insert_L, fmap_cons. cbn [list_to_set fst snd].
  set_solver.
Qed.

(** ** [Agent.choose_action] *)

(** X12: the random agent returns the first column drawn that has a blank
    cell in rows 1 to 5, having placed one mark there, the draws before it
    leaving no trace; when no column has such a cell the loop does not
    return, whatever is drawn. *)
Theorem Agent_choose_action_first_playable env draws :
  wf_board (board env) → Forall (λ k, (0 ≤ k ≤ 6)%Z) draws →
  (∀ before k after,
     draws = before ++ k :: after →
     Forall (λ k', ¬ playable (board env) (Z.to_nat k')) before →
     playable (board env) (Z.to_nat k) →
     ∃ r, 1 ≤ r ≤ 5 ∧ cellv (board env) r (Z.to_nat k) = Blank ∧
          (∀ r', r < r' ≤ 5 → cellv (board env) r' (Z.to_nat k) ≠ Blank) ∧
          Agent_choose_action draws env =
            (Some (Returned k), place env r (Z.to_nat k), after)) ∧
  (Forall (λ k, ¬ playable (board env) (Z.to_nat k)) draws →
   Agent_choose_action draws env = (None, env, [])).
Proof.
  intros Hwf Hrange.
  assert (∀ k, (0 ≤ k ≤ 6)%Z → ¬ playable (board env) (Z.to_nat k) →
               play env k = (Returned false, env)) as Hfail.
  { intros k Hk Hnp. rewrite <- (Z2Nat.id k) at 1 by lia.
    destruct (play_column env (Z.to_nat k) Hwf ltac:(lia)) as [[? _]|[_ ->]];
      done. }
  split.
  - intros before k after -> Hbefore Hk.
    apply Forall_app in Hrange as [Hrb Hrk].
    apply Forall_cons in Hrk as [Hkr _].
    pose proof (play_cases env Hwf k) as Hplay.
    assert (py_index 7 k = Some (Z.to_nat k)) as Hidx.
    { unfold py_index. by rewrite decide_True by lia. }
    rewrite Hidx in Hplay.
    destruct Hplay as [[Hno _]|(r & Hr & Hb & Hbelow & Hplay)].
    { apply playable_rows in Hk as (r & Hr & Hb). by destruct (Hno r). }
    exists r. split_and!; [lia|lia|done|done|].
    induction Hbefore as [|k' before Hk' _ IH]; cbn [app Agent_choose_action].
    + by rewrite Hplay.
    + apply Forall_cons in Hrb as [Hk'r Hrb].
      rewrite (Hfail k') by done. by apply IH.
  - intros Hnone. induction Hnone as [|k l Hk _ IH]; [done|].
    apply Forall_cons in Hrange as [Hkr Hrange].
    cbn [Agent_choose_action]. rewrite (Hfail k) by done. by apply IH.
Qed.

Lemma Agent_choose_action_first_playable_witness :
  ∃ r, 1 ≤ r ≤ 5 ∧ cellv (board five_in_column_0) r (Z.to_nat 3) = Blank ∧
       (∀ r', r < r' ≤ 5 →
              cellv (board five_in_column_0) r' (Z.to_nat 3) ≠ Blank) ∧
       Agent_choose_action [0; 0; 3]%Z five_in_column_0 =
         (Some (Returned 3%Z), place five_in_column_0 r (Z.to_nat 3), []).
Proof.
  refine (proj1 (Agent_choose_action_first_playable five_in_column_0
                   [0; 0; 3]%Z _ _) [0; 0]%Z 3%Z [] eq_refl _ _).
  - split; [reflexivity|]. repeat constructor.
  - repeat constructor; lia.
  - repeat constructor; vm_compute; intros H;
      repeat (apply Exists_cons in H as [H|H]; [discriminate|]);
      by apply Exists_nil in H.
  - apply Exists_cons_hd. reflexivity.
Defined.

(** ** [play_game] *)

Lemma valid_actions_reachable cols env :
  reachable env → reachable (valid_actions cols env).2.
Proof.
  revert env. induction cols as [|col cols IH]; intros env Henv; [done|].
  rewrite valid_actions_cons.
  pose proof (reachable_play env col Henv) as Hplay.
  destruct (play env col) as [[ok|] env1]; [|done].
  specialize (IH env1 Hplay).
  by destruct (valid_actions cols env1) as [[rest|] env2].
Qed.

Lemma choose_action_reachable ag env u k :
  reachable env → reachable (choose_action ag env u k).2.
Proof.
  intros Henv. unfold choose_action.
  destruct (u <? 0.1)%float; [done|].
  pose proof (valid_actions_reachable (Z.of_nat <$> range 7) env Henv) as H.
  by destruct (valid_actions _ env) as [[[|a0 rest]|] env1].
Qed.

Lemma Agent_choose_action_reachable draws env :
  reachable env → reachable (Agent_choose_action draws env).1.2.
Proof.
  revert env. induction draws as [|col draws IH]; intros env Henv; [done|].
  cbn [Agent_choose_action].
  pose proof (reachable_play env col Henv) as Hplay.
  destruct (play env col) as [[[]|] env1]; [done| |done].
  by apply IH.
Qed.

Lemma agent_choose_action_reachable a env rnd :
  reachable env → reachable (agent_choose_action a env rnd).1.2.
Proof.
  intros Henv. destruct a as [ag|]; unfold agent_choose_action.
  - destruct (randoms rnd) as [|u us]; [done|].
    destruct (u <? 0.1)%float.
    + destruct (randints rnd) as [|k ks]; [done|].
      pose proof (choose_action_reachable ag env u k Henv).
      by destruct (choose_action ag env u k).
    + pose proof (choose_action_reachable ag env u 0 Henv).
      by destruct (choose_action ag env u 0).
  - pose proof (Agent_choose_action_reachable (randints rnd) env Henv).
    by destruct (Agent_choose_action (randints rnd) env) as [[r env1] ks].
Qed.

(** What [winner] returns on a board [play] has produced. *)
Lemma winner_reachable s :
  reachable s →
  winner s = Return NotOver ∨
  ∃ m, (m = Red ∨ m = Yellow) ∧ winner s = Return (Won m) ∧
       four_in_a_row (board s).
Proof.
  intros [Hwf _ Htop _]%reachable_inv. rewrite winner_scan by done.
  destruct (find (wins (board s)) scan_order) as [l|] eqn:Hf.
  - right. apply find_some in Hf as [Hl Hwin]. apply list_elem_of_In in Hl.
    destruct (wins_line_of_mark _ _ Hl Hwin) as [Hm _].
    exists (line_mark (board s) l). split_and!; [|done|].
    + destruct (line_mark (board s) l); auto. done.
    + by eapply wins_four_in_a_row.
  - left. assert (top_has_blank (board s) = true) as ->; [|done].
    apply top_has_blank_true. exists 0. split; [lia|]. apply Htop. lia.
Qed.

Lemma agent_turn_reachable a env rnd out w env' rnd' out' :
  reachable env →
  agent_turn a env rnd out = Some (Returned (w, env', rnd', out')) →
  reachable env' ∧ winner env' = Return w ∧ ∃ line, out' = out ++ [line].
Proof.
  intros Henv. unfold agent_turn.
  pose proof (agent_choose_action_reachable a env rnd Henv) as Hr.
  destruct (agent_choose_action a env rnd) as [[[[col|]|] env1] rnd1];
    [|done..].
  cbn [fst snd] in Hr.
  destruct (winner env1) as [|v|] eqn:Hw; [done| |done].
  intros [= <- <- <- <-]. eauto.
Qed.

Lemma announce_winner w env out :
  reachable env → winner env = Return w → truthy w = true →
  four_in_a_row (board env) ∧
  ∃ m, (m = Red ∨ m = Yellow) ∧ w = Won m ∧
       announce w env out =
         out ++ print_board env ++ [cell_str m +:+ " wins!"].
Proof.
  intros Henv Hw Ht.
  destruct (winner_reachable env Henv) as [Hn|(m & Hm & Hwon & Hline)].
  - rewrite Hn in Hw. injection Hw as <-. done.
  - rewrite Hwon in Hw. injection Hw as <-. split; [done|].
    exists m. split_and!; [done|done|]. unfold announce.
    by rewrite decide_False.
Qed.

(** X13: when [play_game], started on a board [play] has produced (the new
    board of the script among them), returns, the board it leaves has four
    in a row, [winner] gives ["R"] or ["Y"] on it, and the last lines
    printed are that board and ["R wins!"] or ["Y wins!"]: the draw
    message is never what the game ends with. *)
Theorem play_game_ends_with_a_winner turns env agent1 agent2 rnd out0
    out env' :
  reachable env →
  play_game turns env agent1 agent2 rnd out0 = Ended out env' →
  reachable env' ∧ four_in_a_row (board env') ∧
  ∃ m lines,
    (m = Red ∨ m = Yellow) ∧ winner env' = Return (Won m) ∧
    out = out0 ++ lines ++ print_board env' ++ [cell_str m +:+ " wins!"].
Proof.
  revert env rnd out0.
  induction turns as [|turns IH]; intros env rnd out0 Henv Hend; [done|].
  cbn [play_game] in Hend.
  destruct (agent_turn agent1 env rnd (out0 ++ print_board env))
    as [[[[[w1 env1] rnd1] out1]|]|] eqn:Ht1; [|done..].
  destruct (agent_turn_reachable _ _ _ _ _ _ _ _ Henv Ht1)
    as (Henv1 & Hw1 & line1 & ->).
  destruct (truthy w1) eqn:Htr1.
  { injection Hend as <- <-.
    destruct (announce_winner w1 env1 ((out0 ++ print_board env) ++ [line1])
                Henv1 Hw1 Htr1) as (Hline & m & Hm & -> & ->).
    split_and!; [done..|]. exists m, (print_board env ++ [line1]).
    split_and!; [done..|]. by rewrite <- !app_assoc. }
  destruct (agent_turn agent2 env1 rnd1 ((out0 ++ print_board env) ++ [line1]))
    as [[[[[w2 env2] rnd2] out2]|]|] eqn:Ht2; [|done..].
  destruct (agent_turn_reachable _ _ _ _ _ _ _ _ Henv1 Ht2)
    as (Henv2 & Hw2 & line2 & ->).
  destruct (truthy w2) eqn:Htr2.
  { injection Hend as <- <-.
    destruct (announce_winner w2 env2
                (((out0 ++ print_board env) ++ [line1]) ++ [line2])
                Henv2 Hw2 Htr2) as (Hline & m & Hm & -> & ->).
    split_and!; [done..|]. exists m, (print_board env ++ [line1; line2]).
    split_and!; [done..|]. by rewrite <- !app_assoc. }
  destruct (IH _ _ _ Henv2 Hend) as (Hr & Hline & m & lines & Hm & Hw & ->).
  split_and!; [done..|].
  exists m, (print_board env ++ [line1; line2] ++ lines).
  split_and!; [done..|]. by rewrite <- !app_assoc.
Qed.

Lemma play_game_ends_with_a_winner_witness :
  ∃ out env',
    main 3 sample_randomness = Ended out env' ∧
    four_in_a_row (board env') ∧
    ∃ m lines,
      (m = Red ∨ m = Yellow) ∧ winner env' = Return (Won m) ∧
      out = [] ++ lines ++ print_board env' ++ [cell_str m +:+ " wins!"].
Proof.
  eexists _, _. split; [vm_compute; reflexivity|].
  refine (proj2 (play_game_ends_with_a_winner 3 Connect4_init
                   (QLearning (QLearningAgent_init None None)) Random
                   sample_randomness [] _ _ reachable_init _)).
  vm_compute. reflexivity.
Defined.

(** The game of the witness: the learning agent fills a row on each of its
    turns, and Yellow has four in column 1 in the third round. *)
Example main_sample_game :
  match main 3 sample_randomness with
  | Ended out env =>
      drop 22 out =
        [ "QLearning Agent plays column 0";
          "| | | | | | | |"; "| | | | | | | |"; "|R|Y| | | | | |";
          "|R|Y|R|Y|R|Y|R|"; "|Y|Y|R|Y|R|Y|R|"; "|R|Y|R|Y|R|Y|R|";
          "Y wins!" ]
  | _ => False
  end.
Proof. vm_compute. reflexivity. Qed.

Lemma play_stuck env col :
  wf_board (board env) → (∀ j, j < 7 → ¬ playable (board env) j) →
  (0 ≤ col ≤ 6)%Z → play env col = (Returned false, env).
Proof.
  intros Hwf Hstuck Hcol. rewrite <- (Z2Nat.id col) by lia.
  destruct (play_column env (Z.to_nat col) Hwf ltac:(lia)) as [[Hpl _]|[_ ->]];
    [|done].
  destruct (Hstuck (Z.to_nat col)); [lia|done].
Qed.

Lemma choose_action_stuck ag env u k :
  wf_board (board env) → (∀ j, j < 7 → ¬ playable (board env) j) →
  choose_action ag env u k =
    (Returned (if (u <? 0.1)%float then Some k else None), env).
Proof.
  intros Hwf Hstuck. unfold choose_action.
  destruct (u <? 0.1)%float; [done|].
  assert (∀ js, Forall (λ j, j < 7) js →
                valid_actions (Z.of_nat <$> js) env = (Returned [], env)) as Hva.
  { induction 1 as [|j js Hj _ IH]; [done|].
    rewrite fmap_cons, valid_actions_cons, play_stuck by (done || lia).
    by rewrite IH. }
  rewrite Hva; [done|]. apply Forall_forall. by intros j ?%elem_of_range.
Qed.

Lemma Agent_choose_action_stuck draws env :
  wf_board (board env) → (∀ j, j < 7 → ¬ playable (board env) j) →
  Forall (λ k, (0 ≤ k ≤ 6)%Z) draws →
  Agent_choose_action draws env = (None, env, []).
Proof.
  intros Hwf Hstuck. induction 1 as [|k draws Hk _ IH]; [done|].
  cbn [Agent_choose_action]. by rewrite play_stuck.
Qed.

Lemma agent_turn_stuck a env rnd out :
  wf_board (board env) → (∀ j, j < 7 → ¬ playable (board env) j) →
  winner env = Return NotOver →
  Forall (λ k, (0 ≤ k ≤ 6)%Z) (randints rnd) →
  agent_turn a env rnd out = None ∨
  ∃ rnd' out',
    agent_turn a env rnd out = Some (Returned (NotOver, env, rnd', out')) ∧
    Forall (λ k, (0 ≤ k ≤ 6)%Z) (randints rnd').
Proof.
  intros Hwf Hstuck Hw Hrange. unfold agent_turn, agent_choose_action.
  destruct a as [ag|].
  - destruct (randoms rnd) as [|u us]; [by left|].
    destruct (u <? 0.1)%float eqn:Hu.
    + destruct (randints rnd) as [|k ks] eqn:Hks; [by left|].
      rewrite choose_action_stuck, Hu, Hw by done. right.
      eexists _, _. split; [done|]. cbn [randints].
      by apply Forall_cons in Hrange as [_ ?].
    + rewrite choose_action_stuck, Hu, Hw by done. right.
      eexists _, _. split; [done|]. done.
  - rewrite Agent_choose_action_stuck by done. by left.
Qed.

(** X14: on a board [play] has produced where no column has a blank cell
    in rows 1 to 5 and no four marks are in a line, [play_game] does not
    return: with any agents, any values of [random.random()] and any draws
    of [random.randint(0, 6)], the loop is still running after any number
    of rounds. *)
Theorem play_game_never_returns_when_stuck turns env agent1 agent2 rnd out :
  reachable env → ¬ four_in_a_row (board env) →
  (∀ j, j < 7 → ¬ playable (board env) j) →
  Forall (λ k, (0 ≤ k ≤ 6)%Z) (randints rnd) →
  play_game turns env agent1 agent2 rnd out = Running.
Proof.
  intros Henv Hline Hstuck.
  pose proof (reachable_inv _ Henv) as [Hwf _ _ _].
  assert (winner env = Return NotOver) as Hw.
  { destruct (winner_reachable env Henv) as [|(m & _ & _ & ?)]; done. }
  revert rnd out. induction turns as [|turns IH]; intros rnd out Hrange;
    [done|].
  cbn [play_game].
  destruct (agent_turn_stuck agent1 env rnd (out ++ print_board env)
              Hwf Hstuck Hw Hrange) as [->|(rnd1 & out1 & -> & Hrange1)];
    [done|].
  cbn [truthy].
  destruct (agent_turn_stuck agent2 env rnd1 out1 Hwf Hstuck Hw Hrange1)
    as [->|(rnd2 & out2 & -> & Hrange2)]; [done|].
  cbn [truthy]. by apply IH.
Qed.

Lemma stuck_board_board :
  stuck_board =
    {| board :=
         [ [Blank; Blank; Blank; Blank; Blank; Blank; Blank];
           [Red; Red; Yellow; Yellow; Red; Red; Yellow];
           [Yellow; Yellow; Red; Red; Yellow; Yellow; Red];
           [Red; Red; Yellow; Yellow; Red; Red; Yellow];
           [Yellow; Yellow; Red; Red; Yellow; Yellow; Red];
           [Red; Red; Yellow; Yellow; Red; Red; Yellow] ];
       current_player := Yellow |}.
Proof. vm_compute. reflexivity. Qed.

Lemma play_game_never_returns_when_stuck_witness :
  play_game 5 stuck_board (QLearning (QLearningAgent_init None None)) Random
    {| randoms := [0.05; 0.5; 0.05]%float; randints := [3; 0; 6; 2]%Z |} [] =
  Running.
Proof.
  apply (play_game_never_returns_when_stuck 5 stuck_board).
  - apply plays_reachable, reachable_init.
  - apply no_line_find. vm_compute. reflexivity.
  - intros j Hj Hpl. rewrite stuck_board_board in Hpl.
    do 7 (destruct j as [|j];
          [repeat (apply Exists_cons in Hpl as [Hpl|Hpl]; [discriminate|]);
           by apply Exists_nil in Hpl|]).
    lia.
  - repeat constructor; lia.
Defined.

(** ** [play] followed by [winner] or [get_state] *)

(** A line that wins after one cell was written won before, or has the
    mark written. *)
Lemma wins_after_set_cell b r j x l :
  wf_board b → r < 6 → j < 7 →
  wins (set_cell b r j x) l = true →
  wins b l = true ∨ line_mark (set_cell b r j x) l = x.
Proof.
  intros Hwf Hr Hj. destruct l as [[[[r1 c1] [r2 c2]] [r3 c3]] [r4 c4]].
  unfold wins, line_mark. rewrite !bool_decide_eq_true. cbn [fst snd].
  rewrite !cellv_set_cell by done.
  repeat case_decide; intros (Ha & Hb & Hc & Hd);
    first [by left | right; congruence].
Qed.

(** X15: when a board without four in a row takes a mark and [winner] then
    returns a mark, it is the mark of the player who just moved. *)
Theorem play_winner_is_mover s col m :
  wf_board (board s) → ¬ four_in_a_row (board s) →
  (play s col).1 = Returned true →
  winner (play s col).2 = Return (Won m) →
  m = current_player s.
Proof.
  intros Hwf Hno Hok Hwin. apply no_line_find in Hno.
  destruct (play_step s col Hwf) as [(r & j & Hr & Hj & Hb & Hplay)|[Hne _]];
    [|done].
  rewrite Hplay in Hwin. cbn [snd] in Hwin.
  rewrite winner_scan in Hwin by by apply wf_set_cell.
  destruct (find (wins (board (place s r j))) scan_order) as [l|] eqn:Hf.
  2: { by destruct (top_has_blank (board (place s r j))). }
  injection Hwin as <-. apply find_some in Hf as [Hl Hw].
  cbn [place board] in Hw |- *.
  apply wins_after_set_cell in Hw as [Hold|Hmark]; [|done|done|lia|done].
  by rewrite (find_none _ _ Hno l Hl) in Hold.
Qed.

Lemma play_winner_is_mover_witness : Red = current_player three_each.
Proof.
  apply (play_winner_is_mover three_each 0 Red).
  - split; [reflexivity|]. repeat constructor.
  - apply no_line_find. vm_compute. reflexivity.
  - reflexivity.
  - reflexivity.
Defined.

(** X16: a call of [play] changes the state key of a 6 by 7 board exactly
    when it returns [True]. *)
Theorem play_changes_state_key s col :
  wf_board (board s) → current_player s ≠ Blank →
  (get_state (play s col).2 ≠ get_state s ↔ (play s col).1 = Returned true).
Proof.
  intros Hwf Hcp.
  destruct (play_step s col Hwf) as [(r & j & Hr & Hj & Hb & ->)|[Hne Hsame]].
  - cbn [fst snd]. split; [done|]. intros _ Hkey.
    unfold get_state in Hkey. apply board_key_inj in Hkey.
    + apply (f_equal (λ b, cellv b r j)) in Hkey. cbn [place board] in Hkey.
      rewrite cellv_set_cell, decide_True, Hb in Hkey by (done || lia). done.
    + apply wf_set_cell, Hwf.
    + apply Hwf.
  - rewrite Hsame. split; [done|]. by intros ?.
Qed.

Lemma play_changes_state_key_witness :
  get_state (play Connect4_init 3).2 ≠ get_state Connect4_init ↔
  (play Connect4_init 3).1 = Returned true.
Proof.
  apply (play_changes_state_key Connect4_init 3).
  - split; [reflexivity|]. repeat constructor.
  - discriminate.
Defined.
